(** * Braille auto-correct: the trie and its distance engine

    A shallow embedding of [src/App.jsx] (classes [TrieNode] and [Trie],
    the table [letterToPattern]) and the properties of [insert], [search],
    [_search] and [_hammingDistance].

    Modelling conventions.
    - A symbol is one character.  [for (const char of word)] walks a string
      by code point; on words made of 8-bit characters that is one [ascii]
      per step, so a word is a [list ascii].
    - A pattern is a JS string, here [string]; [p[i]] is [String.get i p],
      [None] standing for [undefined].
    - A cost is a JS number.  Every value that occurs is a small
      non-negative integer, on which JS arithmetic is exact: costs are [Z].
    - [node.children] is a plain object.  Its own keys are unique and are
      enumerated by [Object.entries] in own-property order: array-index keys
      (for one-character keys, the digits) ascending, then the other keys in
      creation order.  It is an association list kept in that order.
    - The array [suggestions] that [_search] pushes onto is threaded through
      the traversal explicitly. *)

From Stdlib Require Import List ZArith Lia Bool Ascii String Permutation Sorted.
Import ListNotations.
Local Open Scope Z_scope.

(** ** The codec table *)

Definition letterToPattern (char : ascii) : option string :=
  match char with
  | "a"%char => Some "100000"%string | "b"%char => Some "110000"%string
  | "c"%char => Some "100100"%string | "d"%char => Some "100110"%string
  | "e"%char => Some "100010"%string | "f"%char => Some "110100"%string
  | "g"%char => Some "110110"%string | "h"%char => Some "110010"%string
  | "i"%char => Some "010100"%string | "j"%char => Some "010110"%string
  | "k"%char => Some "101000"%string | "l"%char => Some "111000"%string
  | "m"%char => Some "101100"%string | "n"%char => Some "101110"%string
  | "o"%char => Some "101010"%string | "p"%char => Some "111100"%string
  | "q"%char => Some "111110"%string | "r"%char => Some "111010"%string
  | "s"%char => Some "011100"%string | "t"%char => Some "011110"%string
  | "u"%char => Some "101001"%string | "v"%char => Some "111001"%string
  | "w"%char => Some "010111"%string | "x"%char => Some "101101"%string
  | "y"%char => Some "101111"%string | "z"%char => Some "101011"%string
  | _ => None
  end.

Definition has_pattern (char : ascii) : bool :=
  match letterToPattern char with Some _ => true | None => false end.

(** A well-formed query element: width 6 over the alphabet 0/1. *)
Fixpoint binary_string (len : nat) (p : string) : bool :=
  match len, p with
  | O, EmptyString => true
  | S len', String b p' =>
      (Ascii.eqb b "0" || Ascii.eqb b "1") && binary_string len' p'
  | _, _ => false
  end.

Definition valid_pattern (p : string) : bool := binary_string 6 p.

Definition valid_query (inputPatterns : list string) : bool :=
  forallb valid_pattern inputPatterns.

(** ** TrieNode *)

#[local] Set Warnings "-register-all".

Inductive TrieNode : Type :=
  mkTrieNode { children : list (ascii * TrieNode); isEnd : bool }.

(** [new TrieNode()] *)
Definition newTrieNode : TrieNode := mkTrieNode [] false.

(** *** Property access on the [children] object *)

(** [children[char]]: the value stored under the key, [None] for
    [undefined]. *)
Fixpoint get_child (cs : list (ascii * TrieNode)) (char : ascii)
  : option TrieNode :=
  match cs with
  | [] => None
  | (k, v) :: tl => if Ascii.eqb k char then Some v else get_child tl char
  end.

(** A one-character key is an array index exactly when it is a digit. *)
Definition is_index (k : ascii) : bool :=
  (48 <=? nat_of_ascii k)%nat && (nat_of_ascii k <=? 57)%nat.

(** Assignment to an existing key keeps the key where it is. *)
Fixpoint replace_child (cs : list (ascii * TrieNode)) (char : ascii)
  (v : TrieNode) : list (ascii * TrieNode) :=
  match cs with
  | [] => []
  | (k, x) :: tl =>
      if Ascii.eqb k char then (k, v) :: tl
      else (k, x) :: replace_child tl char v
  end.

(** A new array-index key goes among the index keys, in ascending order,
    ahead of every other key. *)
Fixpoint add_index (cs : list (ascii * TrieNode)) (char : ascii)
  (v : TrieNode) : list (ascii * TrieNode) :=
  match cs with
  | [] => [(char, v)]
  | (k, x) :: tl =>
      if is_index k && (nat_of_ascii k <? nat_of_ascii char)%nat
      then (k, x) :: add_index tl char v
      else (char, v) :: (k, x) :: tl
  end.

(** [children[char] = v] *)
Definition set_child (cs : list (ascii * TrieNode)) (char : ascii)
  (v : TrieNode) : list (ascii * TrieNode) :=
  match get_child cs char with
  | Some _ => replace_child cs char v
  | None => if is_index char then add_index cs char v else cs ++ [(char, v)]
  end.

(** ** Trie *)

Definition deletionCost : Z := 3.

(** The trie object is its root node; [deletionCost] is the constant 3. *)
Definition Trie := TrieNode.

(** [new Trie()] *)
Definition newTrie : Trie := newTrieNode.

(** [insert(word)].  The source walks down from the root, creating the
    missing children, and sets [isEnd] on the node it stops at; the nodes on
    the way are the same objects afterwards, so the functional update
    rebuilds exactly the path of [word]. *)
Fixpoint insert (node : TrieNode) (word : list ascii) : TrieNode :=
  match word with
  | [] => mkTrieNode (children node) true
  | char :: rest =>
      let child :=
        match get_child (children node) char with
        | Some childNode => childNode
        | None => newTrieNode
        end in
      mkTrieNode (set_child (children node) char (insert child rest))
                 (isEnd node)
  end.

(** [dictionary.forEach(word => trie.insert(word))] *)
Definition insert_all (t : Trie) (words : list (list ascii)) : Trie :=
  fold_left insert words t.

(** ** The distance engine *)

(** [_hammingDistance(pattern1, pattern2)]: the loop over [i = 0..5]. *)
Definition differs (pattern1 pattern2 : string) (i : nat) : bool :=
  match String.get i pattern1, String.get i pattern2 with
  | Some a, Some b => negb (Ascii.eqb a b)
  | None, None => false
  | _, _ => true
  end.

Definition _hammingDistance (pattern1 pattern2 : string) : Z :=
  fold_left (fun distance i =>
               if differs pattern1 pattern2 i then distance + 1 else distance)
            (seq 0 6) 0.

(** Array and query reads, [dp[j]] and [inputPatterns[j]].  The traversal
    reads [dp[j]] for [j <= n] from rows of [n + 1] cells
    ([_search_calls_row_length]), [newDp[j - 1]] just after writing it, and
    [inputPatterns[j - 1]] for [j <= n]: every read is in range.  The
    defaults stand in for the [undefined] of an out-of-range read and are
    never used. *)
Definition cell (dp : list Z) (j : nat) : Z := nth j dp 0.
Definition query_at (inputPatterns : list string) (j : nat) : string :=
  nth j inputPatterns EmptyString.

(** [Math.min(a, b, c)] *)
Definition min3 (a b c : Z) : Z := Z.min a (Z.min b c).

(** [Array(n + 1).fill().map((_, i) => i * this.deletionCost)] *)
Definition initialDp (n : nat) : list Z :=
  map (fun i => Z.of_nat i * deletionCost) (seq 0 (n + 1)).

(** The row of a child: [newDp = [dp[0] + deletionCost]], then the loop
    [for (j = 1; j <= n; j++)], each turn writing [newDp[j]] one past the
    current end of the array. *)
Definition newDp_step (pattern : string) (dp : list Z)
  (inputPatterns : list string) (newDp : list Z) (j : nat) : list Z :=
  let hammingCost := _hammingDistance pattern (query_at inputPatterns (j - 1)) in
  newDp ++ [min3 (cell dp j + deletionCost)
                 (cell newDp (j - 1) + deletionCost)
                 (cell dp (j - 1) + hammingCost)].

Definition newDp (pattern : string) (dp : list Z)
  (inputPatterns : list string) : list Z :=
  let n := List.length inputPatterns in
  fold_left (newDp_step pattern dp inputPatterns) (seq 1 n)
            [cell dp 0 + deletionCost].

(** [Math.min(...xs)].  It is applied to rows only, which are never empty;
    the value at the empty array (JS: [Infinity]) is not used. *)
Definition Math_min (xs : list Z) : Z :=
  match xs with
  | [] => 0
  | x :: tl => fold_left Z.min tl x
  end.

(** [dp.map((cost, j) => cost + this.deletionCost * (n - j))] *)
Fixpoint map_indexed (f : Z -> nat -> Z) (j : nat) (dp : list Z) : list Z :=
  match dp with
  | [] => []
  | cost :: tl => f cost j :: map_indexed f (S j) tl
  end.

Definition totalCost (dp : list Z) (n : nat) : Z :=
  Math_min (map_indexed
              (fun cost j => cost + deletionCost * (Z.of_nat n - Z.of_nat j))
              0 dp).

(** A suggestion record [{ word, cost }]. *)
Record Suggestion : Type := mkSuggestion { word : list ascii; cost : Z }.

(** [_search(node, currentWord, dp, inputPatterns, suggestions)], returning
    the array [suggestions] as it is after the call. *)
Fixpoint _search (node : TrieNode) (currentWord : list ascii) (dp : list Z)
  (inputPatterns : list string) (suggestions : list Suggestion)
  : list Suggestion :=
  let n := List.length inputPatterns in
  let suggestions :=
    if isEnd node
    then suggestions ++ [mkSuggestion currentWord (totalCost dp n)]
    else suggestions in
  fold_left
    (fun suggestions entry =>
       match letterToPattern (fst entry) with
       | None => suggestions
       | Some pattern =>
           _search (snd entry) (currentWord ++ [fst entry])
                   (newDp pattern dp inputPatterns) inputPatterns suggestions
       end)
    (children node) suggestions.

(** The invocations of [_search] made by a call, in the order they are made,
    each with its arguments [(node, currentWord, dp)]. *)
Definition Call : Type := (TrieNode * list ascii * list Z)%type.

Fixpoint _search_calls (node : TrieNode) (currentWord : list ascii)
  (dp : list Z) (inputPatterns : list string) : list Call :=
  (node, currentWord, dp) ::
  flat_map
    (fun entry =>
       match letterToPattern (fst entry) with
       | None => []
       | Some pattern =>
           _search_calls (snd entry) (currentWord ++ [fst entry])
                         (newDp pattern dp inputPatterns) inputPatterns
       end)
    (children node).

(** What one invocation pushes. *)
Definition pushed (n : nat) (c : Call) : list Suggestion :=
  let '(node, currentWord, dp) := c in
  if isEnd node then [mkSuggestion currentWord (totalCost dp n)] else [].

(** ** Ranking *)

(** [suggestions.sort((a, b) => a.cost - b.cost)].  [Array.prototype.sort]
    is stable and the comparator is a total preorder on the records, which
    fixes its result: the records in ascending cost, equal costs in their
    original order.  Insertion from the right computes that list. *)
Fixpoint insert_by_cost (a : Suggestion) (l : list Suggestion)
  : list Suggestion :=
  match l with
  | [] => [a]
  | b :: tl => if cost a <=? cost b then a :: b :: tl
               else b :: insert_by_cost a tl
  end.

Fixpoint sort_by_cost (l : list Suggestion) : list Suggestion :=
  match l with
  | [] => []
  | a :: tl => insert_by_cost a (sort_by_cost tl)
  end.

(** [arr.slice(0, end)]: a negative [end] counts from the end of the
    array. *)
Definition slice0 {A : Type} (arr : list A) (final : Z) : list A :=
  let len := Z.of_nat (List.length arr) in
  let k := if final <? 0 then Z.max (len + final) 0 else Z.min final len in
  firstn (Z.to_nat k) arr.

(** [search(inputPatterns, maxSuggestions)] *)
Definition search (t : Trie) (inputPatterns : list string)
  (maxSuggestions : Z) : list Suggestion :=
  let n := List.length inputPatterns in
  if (n =? 0)%nat then []
  else
    let initialDp := initialDp n in
    let suggestions := _search t [] initialDp inputPatterns [] in
    slice0 (sort_by_cost suggestions) maxSuggestions.

(** [search(inputPatterns)], the parameter left to its default. *)
Definition search_default (t : Trie) (inputPatterns : list string)
  : list Suggestion :=
  search t inputPatterns 5.

(** The invocations of [_search] during [search]: none for the empty
    query. *)
Definition search_calls (t : Trie) (inputPatterns : list string) : list Call :=
  let n := List.length inputPatterns in
  if (n =? 0)%nat then []
  else _search_calls t [] (initialDp n) inputPatterns.

(** The array [suggestions] of [search] as the traversal leaves it, before
    ranking: empty for the empty query, for which no traversal is made. *)
Definition search_emitted (t : Trie) (inputPatterns : list string)
  : list Suggestion :=
  let n := List.length inputPatterns in
  if (n =? 0)%nat then []
  else _search t [] (initialDp n) inputPatterns [].

(** ** Notions used in the statements *)

(** The row under construction after the first [k] turns of the loop. *)
Definition newDp_upto (pattern : string) (dp : list Z)
  (inputPatterns : list string) (k : nat) : list Z :=
  fold_left (newDp_step pattern dp inputPatterns) (seq 1 k)
            [cell dp 0 + deletionCost].

(** [descends node path target]: following the edges labelled by [path]
    down from [node] ends at [target]. *)
Fixpoint descends (node : TrieNode) (path : list ascii) (target : TrieNode)
  : Prop :=
  match path with
  | [] => target = node
  | char :: rest =>
      exists child,
        In (char, child) (children node) /\ descends child rest target
  end.

(** The call a parent invocation makes for one of its entries. *)
Definition child_call (inputPatterns : list string) (parent : Call)
  (char : ascii) (child : TrieNode) (pattern : string) : Call :=
  let '(_, currentWord, dp) := parent in
  (child, currentWord ++ [char], newDp pattern dp inputPatterns).

(** Walking down from a node with [children[char]], as [insert] does. *)
Fixpoint find_node (node : TrieNode) (path : list ascii) : option TrieNode :=
  match path with
  | [] => Some node
  | char :: rest =>
      match get_child (children node) char with
      | Some child => find_node child rest
      | None => None
      end
  end.

(** The path of [word] exists and ends at a node marked end-of-word. *)
Definition contains (t : Trie) (word : list ascii) : bool :=
  match find_node t word with
  | Some node => isEnd node
  | None => false
  end.

(** The keys of an object are pairwise different, here and below. *)
Fixpoint distinct (keys : list ascii) : bool :=
  match keys with
  | [] => true
  | k :: tl => negb (existsb (Ascii.eqb k) tl) && distinct tl
  end.

Fixpoint distinct_keys (node : TrieNode) : bool :=
  distinct (map fst (children node)) &&
  forallb (fun entry => distinct_keys (snd entry)) (children node).

(** Own-property order of one-character keys: the array-index keys first,
    ascending, then the other keys. *)
Fixpoint own_property_order (keys : list ascii) : bool :=
  match keys with
  | [] => true
  | k :: tl =>
      forallb (fun k' =>
                 if is_index k'
                 then is_index k && (nat_of_ascii k <? nat_of_ascii k')%nat
                 else true) tl
      && own_property_order tl
  end.

(** The words the traversal of a node reaches, in traversal order, read
    from that node: paths over symbols with a pattern that end at a node
    marked end-of-word. *)
Fixpoint words_of (node : TrieNode) : list (list ascii) :=
  (if isEnd node then [[]] else []) ++
  flat_map
    (fun entry =>
       if has_pattern (fst entry)
       then map (cons (fst entry)) (words_of (snd entry))
       else [])
    (children node).

(** Equality of words. *)
Fixpoint word_eqb (a b : list ascii) : bool :=
  match a, b with
  | [], [] => true
  | x :: a', y :: b' => Ascii.eqb x y && word_eqb a' b'
  | _, _ => false
  end.

Definition word_eq_dec : forall a b : list ascii, {a = b} + {a <> b} :=
  list_eq_dec ascii_dec.

(** Records in ascending cost. *)
Definition sorted_by_cost (l : list Suggestion) : Prop :=
  StronglySorted (fun a b => cost a <= cost b) l.

(** The records of one cost, in the order they have in the list. *)
Definition with_cost (c : Z) (l : list Suggestion) : list Suggestion :=
  filter (fun r => cost r =? c) l.

Definition is_prefix {A : Type} (l1 l2 : list A) : Prop :=
  exists rest, l2 = l1 ++ rest.

(** The ranked list [search] cuts its result from: all pushed records,
    sorted. *)
Definition search_full (t : Trie) (inputPatterns : list string)
  : list Suggestion :=
  sort_by_cost (search_emitted t inputPatterns).

(** ** Small dictionaries used as examples *)

Definition cat : list ascii := ["c"; "a"; "t"]%char.

(** The trie of the dictionary [["cat"]]. *)
Definition cat_trie : Trie := insert_all newTrie [cat].

(** The patterns of c, a, t in [letterToPattern]. *)
Definition cat_query : list string := ["100100"; "100000"; "011110"]%string.

(** All 0/1 strings of a given length. *)
Fixpoint all_binary (len : nat) : list string :=
  match len with
  | O => [EmptyString]
  | S len' =>
      map (String "0") (all_binary len') ++ map (String "1") (all_binary len')
  end.

Definition car : list ascii := ["c"; "a"; "r"]%char.

Definition cat_car_trie : Trie := insert_all newTrie [cat; car].

(** The sample dictionary of the source and the trie built from it. *)
Definition dictionary : list (list ascii) :=
  map list_ascii_of_string
    ["hello"; "world"; "braille"; "system"; "react";
     "javascript"; "task"; "thinkerbell"; "correction";
     "interface"; "suggestion"; "keyboard"; "input";
     "auto"; "correct"; "visual"; "impairment"; "accessibility"]%string.

Definition dictionary_trie : Trie := insert_all newTrie dictionary.

(** The patterns of the symbols of a word, those that have one. *)
Definition patterns_of (word : list ascii) : list string :=
  flat_map (fun char =>
              match letterToPattern char with
              | Some pattern => [pattern]
              | None => []
              end) word.

(** ** Induction over a trie, children included *)

Section TrieNode_induction.
Variable P : TrieNode -> Prop.
Hypothesis step :
  forall cs e, Forall (fun entry => P (snd entry)) cs -> P (mkTrieNode cs e).

Fixpoint TrieNode_nested_ind (node : TrieNode) : P node :=
  match node with
  | mkTrieNode cs e =>
      step cs e
        ((fix all (l : list (ascii * TrieNode))
            : Forall (fun entry => P (snd entry)) l :=
            match l with
            | [] => Forall_nil _
            | entry :: tl =>
                Forall_cons entry (TrieNode_nested_ind (snd entry)) (all tl)
            end) cs)
  end.
End TrieNode_induction.

(** ** The cost of a word *)

(** The row [_search] carries when it has gone down [path] from a node
    visited with the row [dp]: [newDp] applied for each symbol in turn.  The
    traversal only follows symbols that have a pattern. *)
Fixpoint row_of (inputPatterns : list string) (dp : list Z)
  (path : list ascii) : list Z :=
  match path with
  | [] => dp
  | char :: rest =>
      match letterToPattern char with
      | Some pattern =>
          row_of inputPatterns (newDp pattern dp inputPatterns) rest
      | None => dp
      end
  end.

(** The cost [search] gives to [word] against a query. *)
Definition word_cost (inputPatterns : list string) (word : list ascii) : Z :=
  let n := List.length inputPatterns in
  totalCost (row_of inputPatterns (initialDp n) word) n.

(** The record of a word. *)
Definition record_of (inputPatterns : list string) (word : list ascii)
  : Suggestion :=
  mkSuggestion word (word_cost inputPatterns word).

(** A row at depth [d] charges every cell at least the cost of making up
    the difference in length. *)
Definition length_bound (n d : nat) (dp : list Z) : Prop :=
  forall j, (j <= n)%nat ->
    deletionCost * Z.abs (Z.of_nat d - Z.of_nat j) <= cell dp j.

(** The symbols of [path] match the query from position [d] on: each has a
    pattern at Hamming distance 0 from the query's pattern there. *)
Fixpoint agrees (inputPatterns : list string) (d : nat) (path : list ascii)
  : Prop :=
  match path with
  | [] => True
  | char :: rest =>
      match letterToPattern char with
      | Some pattern =>
          _hammingDistance pattern (query_at inputPatterns d) = 0
      | None => False
      end /\ agrees inputPatterns (S d) rest
  end.

(** Every 8-bit character. *)
Definition all_ascii : list ascii := map ascii_of_nat (seq 0 256).

(** No two symbols share a pattern, checked over all pairs. *)
Definition patterns_distinct : bool :=
  forallb
    (fun a =>
       forallb
         (fun b =>
            match letterToPattern a, letterToPattern b with
            | Some p, Some p' => negb (String.eqb p p') || Ascii.eqb a b
            | _, _ => true
            end)
         all_ascii)
    all_ascii.

(** The number of positions, among the six, where two patterns differ. *)
Definition differs_count (pattern1 pattern2 : string) (i : nat) : Z :=
  if differs pattern1 pattern2 i then 1 else 0.

(** * The component [App]: keys, groups and suggestions

    The state of the component that the handlers read and write:
    [currentKeys] (the keys of the chord being typed), [groups] (the chords
    typed so far) and the timer held in [timerRef].  A key is a JS string
    over 8-bit characters.  A group is what [keysToPattern] accepts: an
    array of keys or a string, the string ['space'] marking a space. *)

(** ** The key-to-dot table *)

Definition keyToDot (key : string) : option nat :=
  match key with
  | "d"%string => Some 0%nat
  | "w"%string => Some 1%nat
  | "q"%string => Some 2%nat
  | "k"%string => Some 3%nat
  | "o"%string => Some 4%nat
  | "p"%string => Some 5%nat
  | _ => None
  end.

(** [keyToDot.hasOwnProperty(key)] *)
Definition is_dot_key (key : string) : bool :=
  match keyToDot key with Some _ => true | None => false end.

Inductive Keys : Type :=
| KeyArray (keys : list string)
| KeyText (text : string).

(** [text.split('')]: one string per character. *)
Definition split_chars (text : string) : list string :=
  map (fun c => String c EmptyString) (list_ascii_of_string text).

(** [pattern[dot] = '1'] on the six-cell array [pattern].  [dot] comes from
    [keyToDot] and is below 6, so the write is always inside the array. *)
Fixpoint array_set (pattern : list ascii) (dot : nat) (v : ascii)
  : list ascii :=
  match pattern, dot with
  | [], _ => []
  | _ :: tl, O => v :: tl
  | x :: tl, S dot' => x :: array_set tl dot' v
  end.

(** [Array.isArray(keys) ? keys : keys.split('')] *)
Definition keysArray (keys : Keys) : list string :=
  match keys with
  | KeyArray array => array
  | KeyText text => split_chars text
  end.

(** [keysToPattern(keys)] *)
Definition keysToPattern (keys : Keys) : string :=
  let pattern := repeat "0"%char 6 in
  let pattern :=
    fold_left
      (fun pattern key =>
         match keyToDot key with
         | Some dot => array_set pattern dot "1"%char
         | None => pattern
         end)
      (keysArray keys) pattern in
  string_of_list_ascii pattern.

(** ** Suggestions for the groups typed *)

(** [group !== 'space'] *)
Definition not_space (group : Keys) : bool :=
  match group with
  | KeyArray _ => true
  | KeyText text => negb (String.eqb text "space")
  end.

(** The patterns the effect on [groups] computes. *)
Definition inputPatterns_of (groups : list Keys) : list string :=
  map keysToPattern (filter not_space groups).

(** What the effect on [groups] passes to [setSuggestions]. *)
Definition suggestions_for (t : Trie) (groups : list Keys)
  : list Suggestion :=
  let inputPatterns := inputPatterns_of groups in
  if (0 <? List.length inputPatterns)%nat
  then search_default t inputPatterns
  else [].

(** The groups a click on a suggestion sets:
    [suggestion.word.split('').map(char => [char])]. *)
Definition groups_of_word (word : list ascii) : list Keys :=
  map (fun char => KeyArray [String char EmptyString]) word.

(** ** Key presses *)

(** [c.toLowerCase()] on an 8-bit character: A-Z and the accented capitals
    of Latin-1 move up by 32. *)
Definition lower_char (c : ascii) : ascii :=
  let n := nat_of_ascii c in
  if ((65 <=? n) && (n <=? 90) || (192 <=? n) && (n <=? 214)
      || (216 <=? n) && (n <=? 222))%nat
  then ascii_of_nat (n + 32)
  else c.

(** [s.toLowerCase()] *)
Fixpoint toLowerCase (s : string) : string :=
  match s with
  | EmptyString => EmptyString
  | String c s' => String (lower_char c) (toLowerCase s')
  end.

(** [currentKeys.includes(key)] *)
Definition includes (currentKeys : list string) (key : string) : bool :=
  existsb (String.eqb key) currentKeys.

(** [[...currentKeys].sort()]: ascending in code-unit order, stable. *)
Fixpoint insert_key (key : string) (sorted : list string) : list string :=
  match sorted with
  | [] => [key]
  | other :: tl =>
      if String.leb key other then key :: other :: tl
      else other :: insert_key key tl
  end.

Fixpoint sort_keys (keys : list string) : list string :=
  match keys with
  | [] => []
  | key :: tl => insert_key key (sort_keys tl)
  end.

(** The state.  [timer] is the pending timeout, if any, with the value of
    [currentKeys] that its callback closed over. *)
Record AppState : Type := mkAppState {
  currentKeys : list string;
  groups : list Keys;
  timer : option (list string)
}.

Definition initialState : AppState := mkAppState [] [] None.

(** [handleKeyDown(e)], as created by a render in which [currentKeys] had
    the value [rendered], run on the state [s].  The updates it queues are
    functions of the state at the time they are applied
    ([prev => [...prev, key]]); the test [includes] and the callback of
    [setTimeout] read [rendered]. *)
Definition handleKeyDown (rendered : list string) (e_key : string)
  (s : AppState) : AppState :=
  let key := toLowerCase e_key in
  if is_dot_key key && negb (includes rendered key) then
    mkAppState (currentKeys s ++ [key]) (groups s) (Some rendered)
  else if String.eqb key "backspace" then
    mkAppState (currentKeys s) (slice0 (groups s) (-1)) (timer s)
  else if String.eqb key " " then
    mkAppState (currentKeys s) (groups s ++ [KeyText "space"]) (timer s)
  else s.

(** The callback of [setTimeout], run 200 ms after the last accepted key
    press unless another press cleared it. *)
Definition timer_fires (s : AppState) : AppState :=
  match timer s with
  | None => s
  | Some rendered =>
      if (0 <? List.length rendered)%nat then
        let sortedKeys := sort_keys rendered in
        mkAppState [] (groups s ++ [KeyArray sortedKeys]) None
      else mkAppState (currentKeys s) (groups s) None
  end.

(** ** Notions used in the statements about [App] *)

(** The entries of [keyToDot]. *)
Definition dot_keys : list (string * nat) :=
  [("d"%string, 0%nat); ("w"%string, 1%nat); ("q"%string, 2%nat);
   ("k"%string, 3%nat); ("o"%string, 4%nat); ("p"%string, 5%nat)].

(** Some key of the array maps to dot [i]. *)
Definition pressed (array : list string) (i : nat) : bool :=
  existsb (fun key =>
             match keyToDot key with
             | Some dot => (dot =? i)%nat
             | None => false
             end) array.

(** The keys of the dots that are raised in a pattern. *)
Definition keys_for (pattern : string) : list string :=
  flat_map (fun entry : string * nat =>
              match String.get (snd entry) pattern with
              | Some "1"%char => [fst entry]
              | _ => []
              end) dot_keys.

(** The chords that type a word: for each symbol, the keys of its
    pattern. *)
Definition chords_of (word : list ascii) : list Keys :=
  flat_map (fun char =>
              match letterToPattern char with
              | Some pattern => [KeyArray (keys_for pattern)]
              | None => []
              end) word.

(** ** Typing through the handler *)

(** A key press handled by the handler of the latest render: the
    [currentKeys] it closes over are those of the state. *)
Definition press (e_key : string) (s : AppState) : AppState :=
  handleKeyDown (currentKeys s) e_key s.

(** Key presses in a row, none of them 200 ms after the one before. *)
Definition press_all (e_keys : list string) (s : AppState) : AppState :=
  fold_left (fun s e_key => press e_key s) e_keys s.

(** The keys of a chord, then one more key, then 200 ms without a press. *)
Definition type_chord (keys : list string) (extra : string) (s : AppState)
  : AppState :=
  timer_fires (press extra (press_all keys s)).

(** A key of [keyToDot] whose dot is not raised in a pattern, if any. *)
Definition spare_key (pattern : string) : option string :=
  match
    filter (fun entry : string * nat =>
              match String.get (snd entry) pattern with
              | Some "1"%char => false
              | _ => true
              end) dot_keys
  with
  | entry :: _ => Some (fst entry)
  | [] => None
  end.

(** Typing a symbol: the keys of its pattern, then a spare key. *)
Definition type_symbol (char : ascii) (s : AppState) : AppState :=
  match letterToPattern char with
  | Some pattern =>
      match spare_key pattern with
      | Some extra => type_chord (keys_for pattern) extra s
      | None => s
      end
  | None => s
  end.

Definition type_word (word : list ascii) (s : AppState) : AppState :=
  fold_left (fun s char => type_symbol char s) word s.

(** The groups that typing a word commits: for each symbol the keys of its
    pattern, sorted. *)
Definition committed_chords (word : list ascii) : list Keys :=
  flat_map (fun char =>
              match letterToPattern char with
              | Some pattern => [KeyArray (sort_keys (keys_for pattern))]
              | None => []
              end) word.

(** * Properties *)

(** ** The traversal and its invocations *)

Lemma _search_unfold cs e currentWord dp inputPatterns suggestions :
  _search (mkTrieNode cs e) currentWord dp inputPatterns suggestions =
  fold_left
    (fun suggestions entry =>
       match letterToPattern (fst entry) with
       | None => suggestions
       | Some pattern =>
           _search (snd entry) (currentWord ++ [fst entry])
                   (newDp pattern dp inputPatterns) inputPatterns suggestions
       end)
    cs
    (if e
     then suggestions ++
          [mkSuggestion currentWord (totalCost dp (List.length inputPatterns))]
     else suggestions).
Proof. reflexivity. Qed.

Lemma _search_calls_unfold cs e currentWord dp inputPatterns :
  _search_calls (mkTrieNode cs e) currentWord dp inputPatterns =
  (mkTrieNode cs e, currentWord, dp) ::
  flat_map
    (fun entry =>
       match letterToPattern (fst entry) with
       | None => []
       | Some pattern =>
           _search_calls (snd entry) (currentWord ++ [fst entry])
                         (newDp pattern dp inputPatterns) inputPatterns
       end)
    cs.
Proof. reflexivity. Qed.

(** The array after a call is the array before it followed by what the
    invocations pushed, in order. *)
Lemma _search_pushes node :
  forall currentWord dp inputPatterns suggestions,
    _search node currentWord dp inputPatterns suggestions =
    suggestions ++
    flat_map (pushed (List.length inputPatterns))
             (_search_calls node currentWord dp inputPatterns).
Proof.
  induction node as [cs e IH] using TrieNode_nested_ind.
  intros currentWord dp inputPatterns suggestions.
  rewrite _search_unfold, _search_calls_unfold.
  cbn [flat_map pushed isEnd].
  rewrite app_assoc.
  assert (Hfirst :
    (if e
     then suggestions ++
          [mkSuggestion currentWord (totalCost dp (List.length inputPatterns))]
     else suggestions) =
    suggestions ++
    (if e
     then [mkSuggestion currentWord (totalCost dp (List.length inputPatterns))]
     else []))
    by (destruct e; [reflexivity | now rewrite app_nil_r]).
  rewrite Hfirst. clear Hfirst.
  generalize (suggestions ++
    (if e
     then [mkSuggestion currentWord (totalCost dp (List.length inputPatterns))]
     else [])).
  induction IH as [| entry tl Hentry _ IHtl]; intros acc; cbn [fold_left flat_map].
  - now rewrite app_nil_r.
  - rewrite IHtl, flat_map_app, app_assoc. f_equal.
    destruct (letterToPattern (fst entry)) as [pattern|].
    + apply Hentry.
    + now rewrite app_nil_r.
Qed.

(** ** Hamming distance *)

(** Six positions are compared, whatever the strings. *)
Lemma _hammingDistance_range pattern1 pattern2 :
  0 <= _hammingDistance pattern1 pattern2 <= 6.
Proof.
  unfold _hammingDistance. cbn [seq fold_left].
  repeat match goal with
         | |- context [if differs ?a ?b ?i then _ else _] =>
             destruct (differs a b i)
         end; lia.
Qed.

Lemma differs_same pattern i : differs pattern pattern i = false.
Proof.
  unfold differs. destruct (String.get i pattern); [| reflexivity].
  now rewrite Ascii.eqb_refl.
Qed.

Lemma _hammingDistance_same pattern : _hammingDistance pattern pattern = 0.
Proof.
  unfold _hammingDistance. cbn [seq fold_left].
  now rewrite !differs_same.
Qed.

(** ** Rows *)

Lemma initialDp_length n : List.length (initialDp n) = (n + 1)%nat.
Proof. unfold initialDp. now rewrite length_map, length_seq. Qed.

Lemma initialDp_cell n j :
  (j <= n)%nat -> cell (initialDp n) j = Z.of_nat j * deletionCost.
Proof.
  intros Hj. unfold cell, initialDp.
  change 0 with ((fun i => Z.of_nat i * deletionCost) O).
  rewrite map_nth, seq_nth by lia. reflexivity.
Qed.

Lemma newDp_upto_S pattern dp inputPatterns k :
  newDp_upto pattern dp inputPatterns (S k) =
  newDp_step pattern dp inputPatterns
             (newDp_upto pattern dp inputPatterns k) (S k).
Proof.
  unfold newDp_upto. rewrite seq_S, fold_left_app. reflexivity.
Qed.

Lemma newDp_upto_length pattern dp inputPatterns k :
  List.length (newDp_upto pattern dp inputPatterns k) = (k + 1)%nat.
Proof.
  induction k as [| k IH]; [reflexivity |].
  rewrite newDp_upto_S. unfold newDp_step.
  rewrite length_app, IH. simpl. lia.
Qed.

Lemma newDp_upto_stable pattern dp inputPatterns j k :
  (j <= k)%nat ->
  cell (newDp_upto pattern dp inputPatterns k) j =
  cell (newDp_upto pattern dp inputPatterns j) j.
Proof.
  induction k as [| k IH]; intros Hjk.
  - now replace j with O by lia.
  - destruct (Nat.eq_dec j (S k)) as [-> | Hne]; [reflexivity |].
    rewrite <- IH by lia.
    rewrite newDp_upto_S. unfold newDp_step, cell.
    apply app_nth1. rewrite newDp_upto_length. lia.
Qed.

Lemma newDp_length pattern dp inputPatterns :
  List.length (newDp pattern dp inputPatterns) =
  (List.length inputPatterns + 1)%nat.
Proof. apply newDp_upto_length. Qed.

Lemma newDp_cell_0 pattern dp inputPatterns :
  cell (newDp pattern dp inputPatterns) 0 = cell dp 0 + deletionCost.
Proof.
  unfold newDp. fold (newDp_upto pattern dp inputPatterns
                                 (List.length inputPatterns)).
  rewrite newDp_upto_stable by lia. reflexivity.
Qed.

Lemma newDp_cell_S pattern dp inputPatterns j :
  (1 <= j <= List.length inputPatterns)%nat ->
  cell (newDp pattern dp inputPatterns) j =
  min3 (cell dp j + deletionCost)
       (cell (newDp pattern dp inputPatterns) (j - 1) + deletionCost)
       (cell dp (j - 1) +
        _hammingDistance pattern (query_at inputPatterns (j - 1))).
Proof.
  intros Hj. unfold newDp.
  fold (newDp_upto pattern dp inputPatterns (List.length inputPatterns)).
  rewrite !newDp_upto_stable with (k := List.length inputPatterns) by lia.
  destruct j as [| j]; [lia |].
  rewrite newDp_upto_S. unfold newDp_step at 1.
  replace (S j - 1)%nat with j by lia.
  unfold cell at 1.
  rewrite app_nth2 by (rewrite newDp_upto_length; lia).
  rewrite newDp_upto_length.
  replace (S j - (j + 1))%nat with O by lia. cbn [nth].
  reflexivity.
Qed.

(** ** Invocations: which calls are made *)

Lemma _search_calls_head node currentWord dp inputPatterns :
  exists rest,
    _search_calls node currentWord dp inputPatterns =
    (node, currentWord, dp) :: rest.
Proof. destruct node. rewrite _search_calls_unfold. eauto. Qed.

Lemma _search_calls_child cs e currentWord dp inputPatterns char child pattern :
  In (char, child) cs ->
  letterToPattern char = Some pattern ->
  incl (_search_calls child (currentWord ++ [char])
                      (newDp pattern dp inputPatterns) inputPatterns)
       (_search_calls (mkTrieNode cs e) currentWord dp inputPatterns).
Proof.
  intros Hin Hpat call Hcall.
  rewrite _search_calls_unfold. right.
  apply in_flat_map. exists (char, child). split; [assumption |].
  cbn [fst snd]. now rewrite Hpat.
Qed.

Lemma _search_calls_inv cs e currentWord dp inputPatterns call :
  In call (_search_calls (mkTrieNode cs e) currentWord dp inputPatterns) ->
  call = (mkTrieNode cs e, currentWord, dp) \/
  exists char child pattern,
    In (char, child) cs /\ letterToPattern char = Some pattern /\
    In call (_search_calls child (currentWord ++ [char])
                           (newDp pattern dp inputPatterns) inputPatterns).
Proof.
  rewrite _search_calls_unfold. intros [Heq | Hin]; [now left |].
  right. apply in_flat_map in Hin. destruct Hin as [[char child] [Hentry Hin]].
  cbn [fst snd] in Hin.
  destruct (letterToPattern char) as [pattern|] eqn:Hpat; [| contradiction].
  now exists char, child, pattern.
Qed.

(** The calls of a call include the calls of each invocation it makes. *)
Lemma _search_calls_closed root :
  forall prefix dp0 inputPatterns node currentWord dp,
    In (node, currentWord, dp) (_search_calls root prefix dp0 inputPatterns) ->
    incl (_search_calls node currentWord dp inputPatterns)
         (_search_calls root prefix dp0 inputPatterns).
Proof.
  induction root as [cs e IH] using TrieNode_nested_ind.
  intros prefix dp0 inputPatterns node currentWord dp Hin.
  apply _search_calls_inv in Hin.
  destruct Hin as [Heq | (char & child & pattern & Hentry & Hpat & Hin)].
  - injection Heq as -> -> ->. apply incl_refl.
  - rewrite Forall_forall in IH.
    eapply incl_tran.
    + apply (IH (char, child) Hentry _ _ _ _ _ _ Hin).
    + now apply _search_calls_child.
Qed.

(** Every invocation but the first is made by another invocation, for one
    of its entries whose symbol has a pattern. *)
Lemma _search_calls_parent root :
  forall prefix dp0 inputPatterns call,
    In call (_search_calls root prefix dp0 inputPatterns) ->
    call = (root, prefix, dp0) \/
    exists parent char child pattern,
      In parent (_search_calls root prefix dp0 inputPatterns) /\
      In (char, child) (children (fst (fst parent))) /\
      letterToPattern char = Some pattern /\
      call = child_call inputPatterns parent char child pattern.
Proof.
  induction root as [cs e IH] using TrieNode_nested_ind.
  intros prefix dp0 inputPatterns call Hin.
  apply _search_calls_inv in Hin.
  destruct Hin as [Heq | (char & child & pattern & Hentry & Hpat & Hin)];
    [now left | right].
  rewrite Forall_forall in IH.
  destruct (IH (char, child) Hentry _ _ _ _ Hin)
    as [Heq | (parent & char' & child' & pattern' & Hp & He & Hpat' & Hc)].
  - exists (mkTrieNode cs e, prefix, dp0), char, child, pattern.
    repeat split; try assumption.
    rewrite _search_calls_unfold. now left.
  - exists parent, char', child', pattern'. repeat split; try assumption.
    eapply _search_calls_child; eassumption.
Qed.

(** The word of an invocation spells the way from the root to its node,
    over symbols that all have a pattern. *)
Lemma _search_calls_path root :
  forall prefix dp0 inputPatterns node currentWord dp,
    In (node, currentWord, dp) (_search_calls root prefix dp0 inputPatterns) ->
    exists path,
      currentWord = prefix ++ path /\
      descends root path node /\
      forallb has_pattern path = true.
Proof.
  induction root as [cs e IH] using TrieNode_nested_ind.
  intros prefix dp0 inputPatterns node currentWord dp Hin.
  apply _search_calls_inv in Hin.
  destruct Hin as [Heq | (char & child & pattern & Hentry & Hpat & Hin)].
  - injection Heq as -> -> ->. exists []. now rewrite app_nil_r.
  - rewrite Forall_forall in IH.
    destruct (IH (char, child) Hentry _ _ _ _ _ _ Hin)
      as (path & -> & Hdesc & Hall).
    exists (char :: path). repeat split.
    + now rewrite <- app_assoc.
    + cbn. now exists child.
    + cbn. unfold has_pattern at 1. now rewrite Hpat.
Qed.

(** Conversely, every node at the end of a way over symbols with a pattern
    is visited. *)
Lemma _search_calls_reach path :
  forall root prefix dp0 inputPatterns node,
    descends root path node ->
    forallb has_pattern path = true ->
    exists dp,
      In (node, prefix ++ path, dp)
         (_search_calls root prefix dp0 inputPatterns).
Proof.
  induction path as [| char rest IH];
    intros [cs e] prefix dp0 inputPatterns node Hdesc Hall.
  - cbn in Hdesc. subst node. exists dp0. rewrite app_nil_r.
    rewrite _search_calls_unfold. now left.
  - cbn [descends children] in Hdesc. destruct Hdesc as (child & Hentry & Hrest).
    cbn [forallb] in Hall. apply andb_true_iff in Hall.
    destruct Hall as [Hchar Hall]. unfold has_pattern in Hchar.
    destruct (letterToPattern char) as [pattern|] eqn:Hpat; [| discriminate].
    destruct (IH child (prefix ++ [char]) (newDp pattern dp0 inputPatterns)
                 inputPatterns node Hrest Hall) as [dp Hin].
    exists dp. rewrite <- app_assoc in Hin.
    exact (_search_calls_child cs e prefix dp0 inputPatterns char child
             pattern Hentry Hpat _ Hin).
Qed.

Lemma _search_calls_row_length root :
  forall prefix dp0 inputPatterns node currentWord dp,
    In (node, currentWord, dp) (_search_calls root prefix dp0 inputPatterns) ->
    List.length dp0 = (List.length inputPatterns + 1)%nat ->
    List.length dp = (List.length inputPatterns + 1)%nat.
Proof.
  intros prefix dp0 inputPatterns node currentWord dp Hin Hlen.
  apply _search_calls_parent in Hin.
  destruct Hin as [Heq | (parent & char & child & pattern & _ & _ & _ & Hc)].
  - now injection Heq as -> -> ->.
  - destruct parent as [[pn pw] pdp]. cbn in Hc.
    injection Hc as -> -> ->. apply newDp_length.
Qed.

(** ** The [children] object *)

Lemma get_child_In cs char child :
  get_child cs char = Some child -> In (char, child) cs.
Proof.
  induction cs as [| [k v] tl IH]; cbn; [discriminate |].
  destruct (Ascii.eqb k char) eqn:Hk.
  - apply Ascii.eqb_eq in Hk. intros [= ->]. left. now subst.
  - intros H. right. now apply IH.
Qed.

Lemma get_child_None cs char :
  get_child cs char = None <-> existsb (Ascii.eqb char) (map fst cs) = false.
Proof.
  induction cs as [| [k v] tl IH]; cbn; [tauto |].
  rewrite (Ascii.eqb_sym char k).
  destruct (Ascii.eqb k char); cbn; [split; discriminate | exact IH].
Qed.

Lemma distinct_NoDup keys : distinct keys = true <-> NoDup keys.
Proof.
  induction keys as [| k tl IH]; cbn.
  - split; [constructor | reflexivity].
  - rewrite andb_true_iff, negb_true_iff, NoDup_cons_iff, IH.
    assert (Hin : existsb (Ascii.eqb k) tl = false <-> ~ In k tl).
    { rewrite <- not_true_iff_false, existsb_exists. split.
      - intros H Hk. apply H. exists k. split; [assumption | apply Ascii.eqb_refl].
      - intros H (x & Hx & Heq). apply Ascii.eqb_eq in Heq. now subst. }
    now rewrite Hin.
Qed.

Lemma In_get_child cs char child :
  distinct (map fst cs) = true ->
  In (char, child) cs -> get_child cs char = Some child.
Proof.
  induction cs as [| [k v] tl IH]; cbn; [contradiction |].
  rewrite andb_true_iff, negb_true_iff. intros [Hk Htl] [Heq | Hin].
  - injection Heq as -> ->. now rewrite Ascii.eqb_refl.
  - destruct (Ascii.eqb k char) eqn:Hkc; [| now apply IH].
    apply Ascii.eqb_eq in Hkc. subst k.
    apply get_child_None in Hk. rewrite (IH Htl Hin) in Hk. discriminate.
Qed.

Lemma get_replace_child cs char v char' :
  get_child (replace_child cs char v) char' =
  if Ascii.eqb char char'
  then match get_child cs char with Some _ => Some v | None => None end
  else get_child cs char'.
Proof.
  induction cs as [| [k x] tl IH]; cbn.
  - now destruct (Ascii.eqb char char').
  - destruct (Ascii.eqb k char) eqn:Hk; cbn.
    + apply Ascii.eqb_eq in Hk. subst k.
      now destruct (Ascii.eqb char char').
    + rewrite IH. destruct (Ascii.eqb char char') eqn:Hc; [| reflexivity].
      apply Ascii.eqb_eq in Hc. subst char'. now rewrite Hk.
Qed.

Lemma get_add_index cs char v char' :
  get_child cs char = None ->
  get_child (add_index cs char v) char' =
  if Ascii.eqb char char' then Some v else get_child cs char'.
Proof.
  induction cs as [| [k x] tl IH]; cbn [get_child add_index]; [reflexivity |].
  destruct (Ascii.eqb k char) eqn:Hk; [discriminate |]. intros Hnone.
  destruct (is_index k && (nat_of_ascii k <? nat_of_ascii char)%nat);
    cbn [get_child].
  - rewrite (IH Hnone).
    destruct (Ascii.eqb char char') eqn:Hc; [| reflexivity].
    apply Ascii.eqb_eq in Hc. subst char'. now rewrite Hk.
  - reflexivity.
Qed.

Lemma get_app_child cs char v char' :
  get_child cs char = None ->
  get_child (cs ++ [(char, v)]) char' =
  if Ascii.eqb char char' then Some v else get_child cs char'.
Proof.
  induction cs as [| [k x] tl IH]; cbn; [reflexivity |].
  destruct (Ascii.eqb k char) eqn:Hk; [discriminate |]. intros Hnone.
  rewrite (IH Hnone).
  destruct (Ascii.eqb k char') eqn:Hk'; [| reflexivity].
  apply Ascii.eqb_eq in Hk'. subst char'.
  now rewrite Ascii.eqb_sym, Hk.
Qed.

(** Reading back after [children[char] = v]. *)
Lemma get_set_child cs char v char' :
  get_child (set_child cs char v) char' =
  if Ascii.eqb char char' then Some v else get_child cs char'.
Proof.
  unfold set_child. destruct (get_child cs char) as [old|] eqn:Hget.
  - rewrite get_replace_child, Hget. reflexivity.
  - destruct (is_index char); [now apply get_add_index | now apply get_app_child].
Qed.

Lemma replace_child_same cs char v :
  get_child cs char = Some v -> replace_child cs char v = cs.
Proof.
  induction cs as [| [k x] tl IH]; cbn; [reflexivity |].
  destruct (Ascii.eqb k char); [intros [= ->]; reflexivity |].
  intros H. now rewrite IH.
Qed.

Lemma set_child_same cs char v :
  get_child cs char = Some v -> set_child cs char v = cs.
Proof.
  intros H. unfold set_child. rewrite H. now apply replace_child_same.
Qed.

Lemma set_child_twice cs char v :
  set_child (set_child cs char v) char v = set_child cs char v.
Proof.
  apply set_child_same. now rewrite get_set_child, Ascii.eqb_refl.
Qed.

(** The entries after an assignment: the old ones under other keys, and
    the new one. *)
Lemma In_replace_child cs char v entry :
  In entry (replace_child cs char v) ->
  entry = (char, v) \/ In entry cs.
Proof.
  induction cs as [| [k x] tl IH]; cbn; [tauto |].
  destruct (Ascii.eqb k char) eqn:Hk; cbn.
  - apply Ascii.eqb_eq in Hk. subst k. intros [<- | H]; auto.
  - intros [<- | H]; auto. destruct (IH H); auto.
Qed.

Lemma In_add_index cs char v entry :
  In entry (add_index cs char v) -> entry = (char, v) \/ In entry cs.
Proof.
  induction cs as [| [k x] tl IH]; cbn [add_index In];
    [intros [<- | []]; auto |].
  destruct (is_index k && (nat_of_ascii k <? nat_of_ascii char)%nat);
    cbn [In].
  - intros [<- | H]; auto. destruct (IH H); auto.
  - intros [<- | [<- | H]]; auto.
Qed.

Lemma In_set_child cs char v entry :
  In entry (set_child cs char v) -> entry = (char, v) \/ In entry cs.
Proof.
  unfold set_child. destruct (get_child cs char).
  - apply In_replace_child.
  - destruct (is_index char); [apply In_add_index |].
    rewrite in_app_iff. cbn. intros [H | [<- | []]]; auto.
Qed.

Lemma keys_replace_child cs char v :
  map fst (replace_child cs char v) = map fst cs.
Proof.
  induction cs as [| [k x] tl IH]; cbn; [reflexivity |].
  destruct (Ascii.eqb k char); cbn; [reflexivity | now rewrite IH].
Qed.

Lemma keys_add_index cs char v :
  Permutation (map fst (add_index cs char v)) (char :: map fst cs).
Proof.
  induction cs as [| [k x] tl IH]; cbn [add_index map fst]; [reflexivity |].
  destruct (is_index k && (nat_of_ascii k <? nat_of_ascii char)%nat);
    cbn [map fst].
  - rewrite IH. apply perm_swap.
  - reflexivity.
Qed.

Lemma distinct_set_child cs char v :
  distinct (map fst cs) = true ->
  distinct (map fst (set_child cs char v)) = true.
Proof.
  rewrite !distinct_NoDup. intros Hnd. unfold set_child.
  destruct (get_child cs char) eqn:Hget.
  - now rewrite keys_replace_child.
  - assert (Hfresh : ~ In char (map fst cs)).
    { apply get_child_None in Hget. intros Hin.
      rewrite <- not_true_iff_false in Hget. apply Hget.
      apply existsb_exists. exists char. split; [assumption | apply Ascii.eqb_refl]. }
    assert (Hnew : NoDup (char :: map fst cs)) by now constructor.
    destruct (is_index char).
    + eapply Permutation_NoDup; [symmetry; apply keys_add_index | exact Hnew].
    + rewrite map_app. cbn.
      eapply Permutation_NoDup; [apply Permutation_cons_append | exact Hnew].
Qed.

(** ** Assignments keep the keys in own-property order *)

Lemma nat_of_ascii_inj a b : nat_of_ascii a = nat_of_ascii b -> a = b.
Proof.
  intros H. rewrite <- (ascii_nat_embedding a), <- (ascii_nat_embedding b).
  now rewrite H.
Qed.

Lemma own_property_order_app keys char :
  is_index char = false ->
  own_property_order keys = true ->
  own_property_order (keys ++ [char]) = true.
Proof.
  intros Hchar. induction keys as [| k tl IH]; cbn [own_property_order app].
  - reflexivity.
  - rewrite !andb_true_iff. intros [Hk Htl]. split; [| now apply IH].
    rewrite forallb_app, Hk. cbn [forallb]. now rewrite Hchar.
Qed.

Lemma own_property_order_add_index cs char v :
  is_index char = true ->
  get_child cs char = None ->
  own_property_order (map fst cs) = true ->
  own_property_order (map fst (add_index cs char v)) = true.
Proof.
  intros Hchar.
  induction cs as [| [k x] tl IH];
    cbn [add_index map fst own_property_order get_child]; [reflexivity |].
  destruct (Ascii.eqb k char) eqn:Hkc; [discriminate |].
  apply Ascii.eqb_neq in Hkc.
  rewrite andb_true_iff. intros Hnone [Hk Htl].
  destruct (is_index k && (nat_of_ascii k <? nat_of_ascii char)%nat) eqn:Hlt;
    cbn [map fst own_property_order]; rewrite andb_true_iff.
  - split; [| now apply IH].
    rewrite forallb_forall in *. intros k' Hk'.
    apply in_map_iff in Hk'. destruct Hk' as (entry & <- & Hentry).
    apply In_add_index in Hentry. destruct Hentry as [-> | Hold].
    + cbn [fst]. now rewrite Hchar.
    + apply Hk. now apply in_map.
  - split.
    + cbn [forallb]. rewrite Hchar. cbn [andb].
      apply andb_true_iff. split.
      * destruct (is_index k) eqn:Hik; [| reflexivity].
        cbn [andb] in Hlt. apply Nat.ltb_ge in Hlt. apply Nat.ltb_lt.
        assert (nat_of_ascii k <> nat_of_ascii char)
          by (intros Heq; apply Hkc; now apply nat_of_ascii_inj).
        lia.
      * rewrite forallb_forall in *. intros k' Hk'. specialize (Hk k' Hk').
        destruct (is_index k'); [| reflexivity].
        apply andb_true_iff in Hk. destruct Hk as [Hik Hkk'].
        rewrite Hik in Hlt. cbn [andb] in Hlt.
        apply Nat.ltb_ge in Hlt. apply Nat.ltb_lt in Hkk'.
        apply Nat.ltb_lt.
        assert (nat_of_ascii k <> nat_of_ascii char)
          by (intros Heq; apply Hkc; now apply nat_of_ascii_inj).
        lia.
    + cbn [own_property_order]. now rewrite Hk, Htl.
Qed.

(** [children[char] = v] leaves the keys in the order in which
    [Object.entries] enumerates them. *)
Lemma own_property_order_set_child cs char v :
  own_property_order (map fst cs) = true ->
  own_property_order (map fst (set_child cs char v)) = true.
Proof.
  intros Hcs. unfold set_child.
  destruct (get_child cs char) eqn:Hget.
  - now rewrite keys_replace_child.
  - destruct (is_index char) eqn:Hchar.
    + now apply own_property_order_add_index.
    + rewrite map_app. now apply own_property_order_app.
Qed.

(** ** [insert] *)

Lemma word_eqb_eq a b : word_eqb a b = true <-> a = b.
Proof.
  revert b. induction a as [| x a IH]; intros [| y b]; cbn;
    try (split; [discriminate | discriminate]); [tauto |].
  rewrite andb_true_iff, Ascii.eqb_eq, IH.
  split; [intros [-> ->]; reflexivity | intros [= -> ->]; auto].
Qed.

Lemma distinct_keys_unfold cs e :
  distinct_keys (mkTrieNode cs e) =
  distinct (map fst cs) && forallb (fun entry => distinct_keys (snd entry)) cs.
Proof. reflexivity. Qed.

Lemma distinct_keys_child cs e char child :
  distinct_keys (mkTrieNode cs e) = true ->
  In (char, child) cs -> distinct_keys child = true.
Proof.
  rewrite distinct_keys_unfold, andb_true_iff, forallb_forall.
  intros [_ Hall] Hin. exact (Hall _ Hin).
Qed.

Lemma contains_newTrieNode word : contains newTrieNode word = false.
Proof. now destruct word. Qed.

(** Inserting a word twice is inserting it once. *)
Lemma insert_twice word :
  forall node, insert (insert node word) word = insert node word.
Proof.
  induction word as [| char rest IH]; intros node; cbn [insert children isEnd].
  - reflexivity.
  - rewrite get_set_child, Ascii.eqb_refl, IH, set_child_twice. reflexivity.
Qed.

(** After [insert(word)] the trie holds [word] and what it held before. *)
Lemma contains_insert word :
  forall node word',
    contains (insert node word) word' =
    word_eqb word word' || contains node word'.
Proof.
  induction word as [| char rest IH]; intros [cs e] [| char' rest'];
    cbn [insert children isEnd word_eqb orb]; try reflexivity.
  unfold contains. cbn [find_node children].
  rewrite get_set_child.
  destruct (Ascii.eqb char char') eqn:Hc; [| reflexivity].
  apply Ascii.eqb_eq in Hc. subst char'. cbn [andb].
  fold (contains (insert
          match get_child cs char with
          | Some childNode => childNode
          | None => newTrieNode
          end rest) rest').
  rewrite IH.
  destruct (get_child cs char) as [child|]; [reflexivity |].
  now rewrite contains_newTrieNode.
Qed.

Lemma distinct_keys_insert word :
  forall node,
    distinct_keys node = true -> distinct_keys (insert node word) = true.
Proof.
  induction word as [| char rest IH]; intros [cs e] Hnode;
    cbn [insert children isEnd]; [exact Hnode |].
  rewrite distinct_keys_unfold in *.
  apply andb_true_iff in Hnode. destruct Hnode as [Hkeys Hall].
  apply andb_true_iff. split; [now apply distinct_set_child |].
  rewrite forallb_forall in *. intros entry Hentry.
  apply In_set_child in Hentry. destruct Hentry as [-> | Hold]; [| auto].
  cbn [snd]. apply IH.
  destruct (get_child cs char) as [child|] eqn:Hget; [| reflexivity].
  apply get_child_In in Hget. exact (Hall _ Hget).
Qed.

Lemma distinct_keys_insert_all words :
  forall t, distinct_keys t = true -> distinct_keys (insert_all t words) = true.
Proof.
  unfold insert_all.
  induction words as [| word tl IH]; intros t Ht; cbn [fold_left];
    [exact Ht |].
  apply IH. now apply distinct_keys_insert.
Qed.

Lemma contains_insert_all words :
  forall t word,
    contains (insert_all t words) word =
    existsb (fun inserted => word_eqb inserted word) words || contains t word.
Proof.
  unfold insert_all.
  induction words as [| inserted tl IH]; intros t word; cbn [fold_left existsb];
    [reflexivity |].
  rewrite IH, contains_insert.
  now destruct (word_eqb inserted word), (existsb _ tl).
Qed.

(** ** The words a traversal reaches *)

Lemma words_of_unfold cs e :
  words_of (mkTrieNode cs e) =
  (if e then [[]] else []) ++
  flat_map
    (fun entry =>
       if has_pattern (fst entry)
       then map (cons (fst entry)) (words_of (snd entry))
       else [])
    cs.
Proof. reflexivity. Qed.

Lemma words_of_nil cs e : In [] (words_of (mkTrieNode cs e)) <-> e = true.
Proof.
  rewrite words_of_unfold, in_app_iff, in_flat_map. split.
  - intros [Hend | (entry & _ & Hin)].
    + destruct e; [reflexivity | contradiction].
    + destruct (has_pattern (fst entry)); [| contradiction].
      apply in_map_iff in Hin. destruct Hin as (? & [=] & _).
  - intros ->. left. now left.
Qed.

Lemma words_of_cons cs e char rest :
  In (char :: rest) (words_of (mkTrieNode cs e)) <->
  has_pattern char = true /\
  exists child, In (char, child) cs /\ In rest (words_of child).
Proof.
  rewrite words_of_unfold, in_app_iff, in_flat_map. split.
  - intros [Hend | ([k child] & Hentry & Hin)].
    + destruct e; [destruct Hend as [[=] | []] | contradiction].
    + cbn [fst snd] in Hin.
      destruct (has_pattern k) eqn:Hk; [| contradiction].
      apply in_map_iff in Hin. destruct Hin as (tail & [= -> ->] & Htail).
      split; [assumption |]. now exists child.
  - intros (Hpat & child & Hentry & Hrest). right.
    exists (char, child). split; [assumption |]. cbn [fst snd].
    rewrite Hpat. now apply in_map.
Qed.

(** Every reached word is over symbols that have a pattern. *)
Lemma words_of_patterned word :
  forall node, In word (words_of node) -> forallb has_pattern word = true.
Proof.
  induction word as [| char rest IH]; intros [cs e] Hin; [reflexivity |].
  apply words_of_cons in Hin. destruct Hin as (Hpat & child & _ & Hrest).
  cbn. rewrite Hpat. exact (IH _ Hrest).
Qed.

(** The reached words are the words the trie holds whose symbols all have
    a pattern. *)
Lemma words_of_contains word :
  forall node,
    distinct_keys node = true ->
    (In word (words_of node) <->
     forallb has_pattern word = true /\ contains node word = true).
Proof.
  induction word as [| char rest IH]; intros [cs e] Hnode.
  - rewrite words_of_nil. cbn. tauto.
  - rewrite words_of_cons. cbn [forallb]. rewrite andb_true_iff.
    unfold contains. cbn [find_node children].
    assert (Hkeys : distinct (map fst cs) = true).
    { rewrite distinct_keys_unfold in Hnode.
      now apply andb_true_iff in Hnode. }
    split.
    + intros (Hpat & child & Hentry & Hrest).
      rewrite (In_get_child _ _ _ Hkeys Hentry).
      apply IH in Hrest; [| eapply distinct_keys_child; eassumption].
      destruct Hrest as [Hall Hc]. auto.
    + intros ((Hpat & Hall) & Hc).
      destruct (get_child cs char) as [child|] eqn:Hget; [| discriminate].
      apply get_child_In in Hget.
      split; [assumption |]. exists child. split; [assumption |].
      apply IH; [eapply distinct_keys_child; eassumption | auto].
Qed.

Lemma NoDup_map_cons (char : ascii) (words : list (list ascii)) :
  NoDup words -> NoDup (map (cons char) words).
Proof.
  induction 1 as [| word tl Hnotin _ IH]; cbn; constructor; [| exact IH].
  rewrite in_map_iff. intros (other & [= ->] & Hin). contradiction.
Qed.

Lemma NoDup_flat_map_words cs :
  distinct (map fst cs) = true ->
  Forall (fun entry => NoDup (words_of (snd entry))) cs ->
  NoDup (flat_map
           (fun entry =>
              if has_pattern (fst entry)
              then map (cons (fst entry)) (words_of (snd entry))
              else [])
           cs).
Proof.
  induction cs as [| [k child] tl IH]; cbn [flat_map map fst snd distinct];
    [constructor |].
  rewrite andb_true_iff, negb_true_iff. intros [Hk Htl] Hall.
  inversion Hall as [| ? ? Hchild Hrest]; subst.
  apply NoDup_app.
  - destruct (has_pattern k); [| constructor].
    now apply NoDup_map_cons.
  - now apply IH.
  - intros word Hhere Hthere.
    destruct (has_pattern k); [| contradiction].
    apply in_map_iff in Hhere. destruct Hhere as (tail & <- & _).
    apply in_flat_map in Hthere. destruct Hthere as ([k' child'] & Hentry & Hin).
    cbn [fst snd] in Hin. destruct (has_pattern k'); [| contradiction].
    apply in_map_iff in Hin. destruct Hin as (tail' & [= -> _] & _).
    rewrite <- not_true_iff_false in Hk. apply Hk.
    apply existsb_exists. exists k. split; [| apply Ascii.eqb_refl].
    apply in_map_iff. now exists (k, child').
Qed.

(** No word is reached twice. *)
Lemma words_of_NoDup node :
  distinct_keys node = true -> NoDup (words_of node).
Proof.
  induction node as [cs e IH] using TrieNode_nested_ind.
  rewrite distinct_keys_unfold, andb_true_iff, forallb_forall.
  intros [Hkeys Hall]. rewrite words_of_unfold.
  apply NoDup_app.
  - destruct e; repeat constructor. intros [].
  - apply NoDup_flat_map_words; [assumption |].
    rewrite Forall_forall in *. intros entry Hentry.
    apply (IH _ Hentry). exact (Hall _ Hentry).
  - intros word Hhere Hthere.
    destruct e; [| contradiction]. destruct Hhere as [<- | []].
    apply in_flat_map in Hthere. destruct Hthere as (entry & _ & Hin).
    destruct (has_pattern (fst entry)); [| contradiction].
    apply in_map_iff in Hin. destruct Hin as (? & [=] & _).
Qed.

(** The words pushed by a call are the reached words, after the prefix. *)
Lemma pushed_words node :
  forall currentWord dp inputPatterns,
    map word (flat_map (pushed (List.length inputPatterns))
                       (_search_calls node currentWord dp inputPatterns)) =
    map (app currentWord) (words_of node).
Proof.
  induction node as [cs e IH] using TrieNode_nested_ind.
  intros currentWord dp inputPatterns.
  rewrite _search_calls_unfold, words_of_unfold.
  cbn [flat_map pushed isEnd]. rewrite !map_app. f_equal.
  - destruct e; cbn; [now rewrite app_nil_r | reflexivity].
  - induction IH as [| [k child] tl Hchild _ IHtl]; cbn [flat_map fst snd];
      [reflexivity |].
    rewrite flat_map_app, !map_app, IHtl. f_equal.
    unfold has_pattern. destruct (letterToPattern k) as [pattern|];
      [| reflexivity].
    rewrite Hchild, map_map. apply map_ext. intros tail.
    now rewrite <- app_assoc.
Qed.

(** ** The cost at a word end *)

Lemma fold_left_min_le l : forall a,
  fold_left Z.min l a <= a /\ (forall x, In x l -> fold_left Z.min l a <= x).
Proof.
  induction l as [| y tl IH]; intros a; cbn; [split; [lia | contradiction] |].
  destruct (IH (Z.min a y)) as [Hacc Hall]. split; [lia |].
  intros x [<- | Hx]; [lia | auto].
Qed.

Lemma fold_left_min_In l : forall a,
  fold_left Z.min l a = a \/ In (fold_left Z.min l a) l.
Proof.
  induction l as [| y tl IH]; intros a; cbn; [now left |].
  destruct (IH (Z.min a y)) as [Heq | Hin]; [| now right; right].
  rewrite Heq. destruct (Z.min_spec a y) as [[_ ->] | [_ ->]]; auto.
Qed.

Lemma Math_min_le xs x : In x xs -> Math_min xs <= x.
Proof.
  destruct xs as [| a tl]; [contradiction |]. cbn [Math_min].
  destruct (fold_left_min_le tl a) as [Ha Hall].
  intros [<- | Hx]; auto.
Qed.

Lemma Math_min_In xs : xs <> [] -> In (Math_min xs) xs.
Proof.
  destruct xs as [| a tl]; [congruence |]. intros _. cbn [Math_min].
  destruct (fold_left_min_In tl a) as [-> | Hin]; [now left | now right].
Qed.

Lemma map_indexed_length f j dp :
  List.length (map_indexed f j dp) = List.length dp.
Proof. revert j. induction dp as [| c tl IH]; intros j; cbn; auto. Qed.

Lemma map_indexed_nth f dp : forall j k,
  (k < List.length dp)%nat ->
  nth k (map_indexed f j dp) 0 = f (nth k dp 0) (j + k)%nat.
Proof.
  induction dp as [| c tl IH]; intros j k Hk; cbn in Hk; [lia |].
  destruct k as [| k]; cbn [map_indexed nth].
  - now rewrite Nat.add_0_r.
  - rewrite IH by lia. f_equal. lia.
Qed.

(** [totalCost] is the least of [dp[j] + deletionCost * (n - j)]. *)
Lemma totalCost_le dp n j :
  (j < List.length dp)%nat ->
  totalCost dp n <= cell dp j + deletionCost * (Z.of_nat n - Z.of_nat j).
Proof.
  intros Hj. unfold totalCost. apply Math_min_le.
  set (f := fun cost j => cost + deletionCost * (Z.of_nat n - Z.of_nat j)).
  change (cell dp j + deletionCost * (Z.of_nat n - Z.of_nat j))
    with (f (nth j dp 0) (0 + j)%nat).
  rewrite <- map_indexed_nth by assumption.
  apply nth_In. now rewrite map_indexed_length.
Qed.

Lemma totalCost_attained dp n :
  dp <> [] ->
  exists j, (j < List.length dp)%nat /\
    totalCost dp n = cell dp j + deletionCost * (Z.of_nat n - Z.of_nat j).
Proof.
  intros Hdp. unfold totalCost.
  set (f := fun cost j => cost + deletionCost * (Z.of_nat n - Z.of_nat j)).
  assert (Hne : map_indexed f 0 dp <> [])
    by (destruct dp; [congruence | discriminate]).
  apply Math_min_In in Hne.
  apply (In_nth _ _ 0) in Hne. destruct Hne as (j & Hj & Hnth).
  rewrite map_indexed_length in Hj.
  exists j. split; [assumption |].
  rewrite <- Hnth, map_indexed_nth by assumption. reflexivity.
Qed.

Lemma totalCost_initialDp n :
  totalCost (initialDp n) n = Z.of_nat n * deletionCost.
Proof.
  destruct (totalCost_attained (initialDp n) n) as (j & Hj & ->).
  - unfold initialDp. rewrite Nat.add_1_r. discriminate.
  - rewrite initialDp_length in Hj.
    rewrite initialDp_cell by lia. unfold deletionCost. lia.
Qed.

(** ** Ranking *)

Lemma insert_by_cost_perm a l : Permutation (insert_by_cost a l) (a :: l).
Proof.
  induction l as [| b tl IH]; cbn; [reflexivity |].
  destruct (cost a <=? cost b); [reflexivity |].
  rewrite IH. apply perm_swap.
Qed.

Lemma sort_by_cost_perm l : Permutation (sort_by_cost l) l.
Proof.
  induction l as [| a tl IH]; cbn; [reflexivity |].
  rewrite insert_by_cost_perm. now constructor.
Qed.

Lemma insert_by_cost_sorted a l :
  sorted_by_cost l -> sorted_by_cost (insert_by_cost a l).
Proof.
  unfold sorted_by_cost.
  induction 1 as [| b tl Htl IH Hb]; cbn.
  - repeat constructor.
  - destruct (cost a <=? cost b) eqn:Hab.
    + apply Z.leb_le in Hab. constructor; [now constructor |].
      constructor; [assumption |].
      rewrite Forall_forall in *. intros x Hx. specialize (Hb x Hx). lia.
    + apply Z.leb_gt in Hab. constructor; [assumption |].
      rewrite Forall_forall in *. intros x Hx.
      apply (Permutation_in _ (insert_by_cost_perm a tl)) in Hx.
      destruct Hx as [<- | Hx]; [lia | auto].
Qed.

Lemma sort_by_cost_sorted l : sorted_by_cost (sort_by_cost l).
Proof.
  induction l as [| a tl IH]; cbn; [constructor |].
  now apply insert_by_cost_sorted.
Qed.

Lemma insert_by_cost_stable c a l :
  with_cost c (insert_by_cost a l) = with_cost c (a :: l).
Proof.
  unfold with_cost.
  induction l as [| b tl IH]; cbn [insert_by_cost]; [reflexivity |].
  destruct (cost a <=? cost b) eqn:Hab; [reflexivity |].
  apply Z.leb_gt in Hab. cbn [filter] in *. rewrite IH.
  destruct (cost b =? c) eqn:Hb, (cost a =? c) eqn:Ha; try reflexivity.
  apply Z.eqb_eq in Hb, Ha. lia.
Qed.

(** Sorting keeps records of equal cost in their order. *)
Lemma sort_by_cost_stable c l :
  with_cost c (sort_by_cost l) = with_cost c l.
Proof.
  induction l as [| a tl IH]; cbn [sort_by_cost]; [reflexivity |].
  rewrite insert_by_cost_stable. unfold with_cost in *. cbn [filter].
  now rewrite IH.
Qed.

(** Ascending cost and the order within each cost determine a list: a
    stable sort, however it proceeds, returns [sort_by_cost]. *)
Lemma sorted_stable_unique l1 :
  forall l2,
    sorted_by_cost l1 -> sorted_by_cost l2 ->
    (forall c, with_cost c l1 = with_cost c l2) ->
    l1 = l2.
Proof.
  unfold sorted_by_cost, with_cost.
  induction l1 as [| a t1 IH]; intros [| b t2] H1 H2 Hc.
  - reflexivity.
  - specialize (Hc (cost b)). cbn in Hc. rewrite Z.eqb_refl in Hc.
    discriminate.
  - specialize (Hc (cost a)). cbn in Hc. rewrite Z.eqb_refl in Hc.
    discriminate.
  - apply StronglySorted_inv in H1, H2.
    destruct H1 as [H1 Ha], H2 as [H2 Hb].
    rewrite Forall_forall in Ha, Hb.
    assert (Hab : cost a <= cost b).
    { assert (Hin : In b (filter (fun r => cost r =? cost b) (a :: t1))).
      { rewrite Hc. cbn. rewrite Z.eqb_refl. now left. }
      apply filter_In in Hin. destruct Hin as [[<- | Hin] _]; [lia | auto]. }
    assert (Hba : cost b <= cost a).
    { assert (Hin : In a (filter (fun r => cost r =? cost a) (b :: t2))).
      { rewrite <- Hc. cbn. rewrite Z.eqb_refl. now left. }
      apply filter_In in Hin. destruct Hin as [[<- | Hin] _]; [lia | auto]. }
    assert (Heq : a = b).
    { specialize (Hc (cost a)). cbn in Hc. rewrite Z.eqb_refl in Hc.
      replace (cost b =? cost a) with true in Hc
        by (symmetry; apply Z.eqb_eq; lia).
      now injection Hc. }
    subst b. f_equal. apply IH; try assumption.
    intros c. specialize (Hc c). cbn in Hc.
    destruct (cost a =? c); [now injection Hc | exact Hc].
Qed.

Lemma sort_by_cost_unique l l' :
  sorted_by_cost l' ->
  (forall c, with_cost c l' = with_cost c l) ->
  l' = sort_by_cost l.
Proof.
  intros Hsorted Hstable. apply sorted_stable_unique.
  - exact Hsorted.
  - apply sort_by_cost_sorted.
  - intros c. now rewrite sort_by_cost_stable.
Qed.

Lemma sorted_by_cost_firstn k l :
  sorted_by_cost l -> sorted_by_cost (firstn k l).
Proof.
  unfold sorted_by_cost. intros Hl. revert k.
  induction Hl as [| a tl Htl IH Ha]; intros [| k]; cbn; try constructor.
  - apply IH.
  - rewrite Forall_forall in *. intros x Hx. apply Ha.
    rewrite <- (firstn_skipn k tl). apply in_or_app. now left.
Qed.

Lemma with_cost_firstn c k l :
  is_prefix (with_cost c (firstn k l)) (with_cost c l).
Proof.
  exists (with_cost c (skipn k l)). unfold with_cost.
  now rewrite <- filter_app, firstn_skipn.
Qed.

(** ** [search] *)

Lemma slice0_nonneg {A : Type} (arr : list A) k :
  0 <= k -> slice0 arr k = firstn (Z.to_nat k) arr.
Proof.
  intros Hk. unfold slice0.
  destruct (k <? 0) eqn:Hneg; [apply Z.ltb_lt in Hneg; lia |].
  destruct (Z.min_spec k (Z.of_nat (List.length arr))) as [[_ ->] | [Hle ->]];
    [reflexivity |].
  rewrite Nat2Z.id, firstn_all. symmetry. apply firstn_all2. lia.
Qed.

Lemma slice0_negative {A : Type} (arr : list A) k :
  k < 0 -> slice0 arr k = firstn (List.length arr - Z.to_nat (- k)) arr.
Proof.
  intros Hk. unfold slice0.
  apply Z.ltb_lt in Hk. rewrite Hk. apply Z.ltb_lt in Hk. f_equal. lia.
Qed.

Lemma search_slice t inputPatterns maxSuggestions :
  search t inputPatterns maxSuggestions =
  slice0 (search_full t inputPatterns) maxSuggestions.
Proof.
  unfold search, search_full, search_emitted.
  destruct (List.length inputPatterns =? 0)%nat; [| reflexivity].
  unfold slice0. now rewrite firstn_nil.
Qed.

Lemma search_emitted_calls t inputPatterns :
  search_emitted t inputPatterns =
  flat_map (pushed (List.length inputPatterns)) (search_calls t inputPatterns).
Proof.
  unfold search_emitted, search_calls.
  destruct (List.length inputPatterns =? 0)%nat; [reflexivity |].
  now rewrite _search_pushes.
Qed.

Lemma search_calls_nonempty t inputPatterns :
  inputPatterns <> [] ->
  search_calls t inputPatterns =
  _search_calls t [] (initialDp (List.length inputPatterns)) inputPatterns.
Proof.
  intros Hne. unfold search_calls.
  destruct inputPatterns; [congruence | reflexivity].
Qed.

Lemma search_calls_empty t : search_calls t [] = [].
Proof. reflexivity. Qed.

Lemma search_emitted_words t inputPatterns :
  inputPatterns <> [] ->
  map word (search_emitted t inputPatterns) = words_of t.
Proof.
  intros Hne.
  rewrite search_emitted_calls, (search_calls_nonempty _ _ Hne), pushed_words.
  rewrite <- (map_id (words_of t)) at 2. now apply map_ext.
Qed.

Lemma search_full_perm t inputPatterns :
  Permutation (search_full t inputPatterns) (search_emitted t inputPatterns).
Proof. apply sort_by_cost_perm. Qed.

Lemma search_full_sorted t inputPatterns :
  sorted_by_cost (search_full t inputPatterns).
Proof. apply sort_by_cost_sorted. Qed.

Lemma search_incl_full t inputPatterns k :
  incl (search t inputPatterns k) (search_full t inputPatterns).
Proof.
  rewrite search_slice. unfold slice0. intros r Hr.
  match type of Hr with In _ (firstn ?n ?l) =>
    rewrite <- (firstn_skipn n l) end.
  apply in_or_app. left. exact Hr.
Qed.

Lemma search_all t inputPatterns k :
  Z.of_nat (List.length (search_emitted t inputPatterns)) <= k ->
  search t inputPatterns k = search_full t inputPatterns.
Proof.
  intros Hk.
  pose proof (Permutation_length (search_full_perm t inputPatterns)) as Hlen.
  rewrite search_slice, slice0_nonneg by lia.
  apply firstn_all2. lia.
Qed.

(** The words of every result are reached words. *)
Lemma search_words_reached t inputPatterns k w :
  In w (map word (search t inputPatterns k)) -> In w (words_of t).
Proof.
  intros Hin. apply in_map_iff in Hin. destruct Hin as (r & <- & Hr).
  apply search_incl_full in Hr.
  apply (Permutation_in _ (search_full_perm t inputPatterns)) in Hr.
  destruct inputPatterns as [| p q]; [contradiction |].
  rewrite <- (search_emitted_words t (p :: q)) by discriminate.
  now apply in_map.
Qed.

Lemma search_words_NoDup t inputPatterns k :
  distinct_keys t = true -> NoDup (map word (search t inputPatterns k)).
Proof.
  intros Ht. rewrite search_slice. unfold slice0.
  match goal with |- NoDup (map _ (firstn ?n ?l)) =>
    assert (Hfull : NoDup (map word l));
    [| rewrite <- (firstn_skipn n l), map_app in Hfull;
       exact (NoDup_app_remove_r _ _ Hfull)] end.
  eapply Permutation_NoDup.
  - apply Permutation_map. symmetry. apply search_full_perm.
  - destruct inputPatterns as [| p q]; [constructor |].
    rewrite search_emitted_words by discriminate. now apply words_of_NoDup.
Qed.

Lemma binary_string_enum len :
  forall p, binary_string len p = true -> In p (all_binary len).
Proof.
  induction len as [| len IH]; intros [| b p]; cbn [binary_string all_binary];
    try discriminate.
  - intros _. now left.
  - rewrite andb_true_iff, orb_true_iff, !Ascii.eqb_eq.
    intros [[-> | ->] Hp]; apply in_or_app; [left | right];
      apply in_map; now apply IH.
Qed.

Lemma cat_trailing_full x :
  valid_pattern x = true ->
  search_full cat_trie (cat_query ++ [x]) = [mkSuggestion cat 3].
Proof.
  intros Hx. apply binary_string_enum in Hx.
  vm_compute in Hx.
  repeat (destruct Hx as [<- | Hx]; [vm_compute; reflexivity |]).
  contradiction.
Qed.

Lemma has_pattern_all w :
  forallb has_pattern w = true <->
  forall char, In char w -> letterToPattern char <> None.
Proof.
  rewrite forallb_forall. unfold has_pattern.
  split; intros H c Hc; specialize (H c Hc);
    destruct (letterToPattern c); congruence.
Qed.

(** ** The engine on the sample dictionary *)

Example search_dictionary_task :
  search_default dictionary_trie (patterns_of (list_ascii_of_string "task")) =
  [ mkSuggestion (list_ascii_of_string "task") 0;
    mkSuggestion (list_ascii_of_string "auto") 8;
    mkSuggestion (list_ascii_of_string "hello") 10;
    mkSuggestion (list_ascii_of_string "input") 10;
    mkSuggestion (list_ascii_of_string "world") 11 ].
Proof. vm_compute. reflexivity. Qed.

Example search_dictionary_typo :
  search_default dictionary_trie (patterns_of (list_ascii_of_string "corect")) =
  [ mkSuggestion (list_ascii_of_string "correct") 3;
    mkSuggestion (list_ascii_of_string "react") 7;
    mkSuggestion (list_ascii_of_string "world") 11;
    mkSuggestion (list_ascii_of_string "input") 11;
    mkSuggestion (list_ascii_of_string "correction") 12 ].
Proof. vm_compute. reflexivity. Qed.

Example dictionary_trie_keys :
  distinct_keys dictionary_trie = true /\
  map fst (children dictionary_trie) =
  list_ascii_of_string "hwbsrjtcikav".
Proof. vm_compute. split; reflexivity. Qed.

(** * The claims *)

(** C1.  During [search] the first visit is the root's, with the row
    [0, 3, 6, ..., 3 n] ([deletionCost = 3]; for the empty query there is no
    visit at all).  Every row has [n + 1] cells.  For every visited node and
    every entry of it whose symbol has a pattern, the child is visited with
    the row [newDp], where [newDp[0] = dp[0] + 3] and, for [j = 1..n],
    [newDp[j] = min (dp[j] + 3, newDp[j-1] + 3,
                     dp[j-1] + hamming (pattern, query[j-1]))].
    Every visit but the root's is such a child visit, so that a row is
    computed from the parent's row and the symbol's pattern only.
    The visits are those of the code: what [_search] adds to the array
    [suggestions] is what its visits push, in order; the result of [search]
    is the ranked cut of what the visits from the root push; and every
    record [search] returns is the word of a visit of a node marked
    end-of-word, at the [totalCost] of the row of that visit. *)
Theorem C1_dp_rows (t : Trie) (inputPatterns : list string) :
  let n := List.length inputPatterns in
  deletionCost = 3 /\
  hd_error (search_calls t inputPatterns) =
    (if (n =? 0)%nat then None else Some (t, [], initialDp n)) /\
  initialDp n = map (fun j => Z.of_nat j * 3) (seq 0 (n + 1)) /\
  (forall node currentWord dp,
      In (node, currentWord, dp) (search_calls t inputPatterns) ->
      List.length dp = (n + 1)%nat /\
      forall char child pattern,
        In (char, child) (children node) ->
        letterToPattern char = Some pattern ->
        let row := newDp pattern dp inputPatterns in
        In (child, currentWord ++ [char], row) (search_calls t inputPatterns) /\
        cell row 0 = cell dp 0 + deletionCost /\
        forall j, (1 <= j <= n)%nat ->
          cell row j =
          min3 (cell dp j + deletionCost)
               (cell row (j - 1) + deletionCost)
               (cell dp (j - 1) +
                _hammingDistance pattern (query_at inputPatterns (j - 1)))) /\
  (forall call,
      In call (search_calls t inputPatterns) ->
      call = (t, [], initialDp n) \/
      exists parent char child pattern,
        In parent (search_calls t inputPatterns) /\
        In (char, child) (children (fst (fst parent))) /\
        letterToPattern char = Some pattern /\
        call = child_call inputPatterns parent char child pattern) /\
  (forall node currentWord dp suggestions,
      _search node currentWord dp inputPatterns suggestions =
      suggestions ++
      flat_map (pushed n) (_search_calls node currentWord dp inputPatterns)) /\
  (forall maxSuggestions,
      search t inputPatterns maxSuggestions =
      slice0 (sort_by_cost
                (flat_map (pushed n) (search_calls t inputPatterns)))
             maxSuggestions) /\
  (forall maxSuggestions r,
      In r (search t inputPatterns maxSuggestions) ->
      exists node dp,
        In (node, word r, dp) (search_calls t inputPatterns) /\
        isEnd node = true /\
        cost r = totalCost dp n).
Proof.
  intros n.
  assert (Hcode :
    (forall node currentWord dp suggestions,
        _search node currentWord dp inputPatterns suggestions =
        suggestions ++
        flat_map (pushed n)
                 (_search_calls node currentWord dp inputPatterns)) /\
    (forall maxSuggestions,
        search t inputPatterns maxSuggestions =
        slice0 (sort_by_cost
                  (flat_map (pushed n) (search_calls t inputPatterns)))
               maxSuggestions) /\
    (forall maxSuggestions r,
        In r (search t inputPatterns maxSuggestions) ->
        exists node dp,
          In (node, word r, dp) (search_calls t inputPatterns) /\
          isEnd node = true /\
          cost r = totalCost dp n)).
  { split; [intros; apply _search_pushes |].
    split.
    - intros maxSuggestions. rewrite search_slice. unfold search_full.
      now rewrite search_emitted_calls.
    - intros maxSuggestions r Hr.
      apply search_incl_full in Hr.
      apply (Permutation_in _ (search_full_perm t inputPatterns)) in Hr.
      rewrite search_emitted_calls in Hr. apply in_flat_map in Hr.
      destruct Hr as ([[node currentWord] dp] & Hcall & Hpushed).
      cbn [pushed] in Hpushed.
      destruct (isEnd node) eqn:Hend; [| contradiction].
      destruct Hpushed as [<- | []].
      exists node, dp. cbn [word cost]. repeat split; assumption. }
  split; [reflexivity |].
  destruct inputPatterns as [| p q].
  { split; [reflexivity |]. split; [reflexivity |].
    split; [intros node currentWord dp [] |].
    split; [intros call [] | exact Hcode]. }
  rewrite (search_calls_nonempty t (p :: q)) in * by discriminate. fold n.
  split; [| split; [reflexivity | split; [| split]]].
  - destruct (_search_calls_head t [] (initialDp n) (p :: q)) as [rest ->].
    reflexivity.
  - intros node currentWord dp Hcall. split.
    + eapply _search_calls_row_length; [exact Hcall | apply initialDp_length].
    + intros char child pattern Hentry Hpat row. subst row.
      split; [| split].
      * apply (_search_calls_closed _ _ _ _ _ _ _ Hcall).
        destruct node as [cs e]. cbn [children] in Hentry.
        apply (_search_calls_child cs e currentWord dp (p :: q)
                 char child pattern Hentry Hpat).
        destruct (_search_calls_head child (currentWord ++ [char])
                    (newDp pattern dp (p :: q)) (p :: q))
          as [rest ->].
        now left.
      * apply newDp_cell_0.
      * intros j Hj. now apply newDp_cell_S.
  - intros call Hcall. now apply _search_calls_parent.
  - exact Hcode.
Qed.

(** An instance of C1: the visits over the one-word dictionary. *)
Lemma C1_dp_rows_witness :
  hd_error (search_calls cat_trie cat_query) =
    Some (cat_trie, [], [0; 3; 6; 9]) /\
  In (insert newTrie ["a"; "t"]%char, ["c"]%char, [3; 0; 3; 6])
     (search_calls cat_trie cat_query).
Proof.
  destruct (C1_dp_rows cat_trie cat_query) as (_ & Hroot & _ & Hstep & _).
  split; [exact Hroot |].
  assert (Hfirst : In (cat_trie, [], [0; 3; 6; 9])
                      (search_calls cat_trie cat_query)) by (left; reflexivity).
  destruct (Hstep _ _ _ Hfirst) as (_ & Hchild).
  destruct (Hchild "c"%char (insert newTrie ["a"; "t"]%char) "100100"%string)
    as (Hin & _).
  - left. reflexivity.
  - reflexivity.
  - exact Hin.
Defined.

(** C2.  During [search] the records pushed are those of the visited nodes
    marked end-of-word, one each, in visiting order, and none for the other
    nodes: [currentWord] with the cost [totalCost dp n].  [currentWord]
    spells the way from the root to the node, and [totalCost dp n] is the
    least of [dp[j] + deletionCost * (n - j)] over [j = 0..n].  Over a
    non-empty query the visited nodes are the nodes of the trie whose way
    from the root is over symbols with a pattern. *)
Theorem C2_word_end_records (t : Trie) (inputPatterns : list string) :
  let n := List.length inputPatterns in
  search_emitted t inputPatterns =
    flat_map (fun call : Call =>
                let '(node, currentWord, dp) := call in
                if isEnd node
                then [mkSuggestion currentWord (totalCost dp n)]
                else [])
             (search_calls t inputPatterns) /\
  (forall maxSuggestions,
      search t inputPatterns maxSuggestions =
      slice0 (sort_by_cost (search_emitted t inputPatterns)) maxSuggestions) /\
  (forall node currentWord dp,
      In (node, currentWord, dp) (search_calls t inputPatterns) ->
      descends t currentWord node /\
      (forall j, (j <= n)%nat ->
         totalCost dp n <=
         cell dp j + deletionCost * (Z.of_nat n - Z.of_nat j)) /\
      (exists j, (j <= n)%nat /\
         totalCost dp n =
         cell dp j + deletionCost * (Z.of_nat n - Z.of_nat j))) /\
  (forall path node,
      inputPatterns <> [] ->
      descends t path node ->
      (forall char, In char path -> letterToPattern char <> None) ->
      exists dp, In (node, path, dp) (search_calls t inputPatterns)).
Proof.
  intros n.
  split; [apply search_emitted_calls |].
  split; [intros; apply search_slice |].
  split.
  - intros node currentWord dp Hcall.
    destruct inputPatterns as [| p q]; [contradiction |].
    rewrite search_calls_nonempty in Hcall by discriminate. fold n in Hcall.
    assert (Hlen : List.length dp = (n + 1)%nat)
      by (eapply _search_calls_row_length;
          [exact Hcall | apply initialDp_length]).
    split; [| split].
    + destruct (_search_calls_path _ _ _ _ _ _ _ Hcall) as (path & -> & H & _).
      exact H.
    + intros j Hj. apply totalCost_le. lia.
    + destruct (totalCost_attained dp n) as (j & Hj & Heq).
      * destruct dp; [cbn in Hlen; lia | discriminate].
      * exists j. split; [lia | exact Heq].
  - intros path node Hne Hdesc Hall.
    rewrite search_calls_nonempty by assumption.
    apply (_search_calls_reach path t [] _ inputPatterns node Hdesc).
    now apply has_pattern_all.
Qed.

(** An instance of C2: the one record pushed over the one-word
    dictionary. *)
Lemma C2_word_end_records_witness :
  search_emitted cat_trie cat_query = [mkSuggestion cat 0] /\
  exists dp, In (insert newTrie [], cat, dp) (search_calls cat_trie cat_query).
Proof.
  destruct (C2_word_end_records cat_trie cat_query)
    as (Hpushed & _ & _ & Hreach).
  split; [rewrite Hpushed; reflexivity |].
  apply Hreach.
  - discriminate.
  - cbn. eexists. split; [left; reflexivity |].
    eexists. split; [left; reflexivity |].
    eexists. split; [left; reflexivity | reflexivity].
  - intros char [<- | [<- | [<- | []]]]; discriminate.
Defined.

(** C3.  Dictionary [{"cat"}], query the patterns of c, a, t followed by
    any fourth width-6 binary pattern: [search] returns the single record
    (cat, 3), which is therefore its first suggestion, for the default
    [maxSuggestions] and for every [maxSuggestions >= 1]. *)
Theorem C3_trailing_insertion (x : string) (maxSuggestions : Z) :
  valid_pattern x = true ->
  1 <= maxSuggestions ->
  map letterToPattern cat = map Some cat_query /\
  search cat_trie (cat_query ++ [x]) maxSuggestions = [mkSuggestion cat 3] /\
  hd_error (search cat_trie (cat_query ++ [x]) maxSuggestions) =
    Some (mkSuggestion cat 3) /\
  hd_error (search_default cat_trie (cat_query ++ [x])) =
    Some (mkSuggestion cat 3).
Proof.
  intros Hx Hk. split; [reflexivity |].
  unfold search_default. rewrite !search_slice, (cat_trailing_full x Hx).
  rewrite !slice0_nonneg by lia.
  destruct (Z.to_nat maxSuggestions) eqn:Hn; [lia |].
  cbn [firstn]. rewrite firstn_nil. repeat split.
Qed.

Lemma C3_trailing_insertion_witness :
  valid_pattern "101101" = true /\
  hd_error (search cat_trie (cat_query ++ ["101101"%string]) 5) =
  Some (mkSuggestion cat 3).
Proof.
  split; [reflexivity |].
  destruct (C3_trailing_insertion "101101"%string 5) as (_ & _ & Hhd & _).
  - reflexivity.
  - lia.
  - exact Hhd.
Defined.

(** C4.  Dictionary [{"cat"}], query exactly the patterns of c, a, t:
    [search] returns the one-element list [(cat, 0)]. *)
Theorem C4_exact_match :
  cat_trie = insert newTrie cat /\
  map letterToPattern cat = map Some cat_query /\
  search_default cat_trie cat_query = [mkSuggestion cat 0].
Proof. repeat split. Qed.

(** C5.  For every trie, every query and every [maxSuggestions = k >= 0],
    the result of [search] has at most [k] records, is in ascending cost
    with the records of one cost in the order the traversal pushed them, and
    is the first [k] records of the full ranked list: the pushed records
    sorted by cost with equal costs in pushing order, which is what [search]
    returns once [k] reaches the number of pushed records. *)
Theorem C5_ranking_truncation (t : Trie) (inputPatterns : list string)
  (k : Z) :
  0 <= k ->
  let result := search t inputPatterns k in
  let full := search_full t inputPatterns in
  Z.of_nat (List.length result) <= k /\
  sorted_by_cost result /\
  (forall c,
      is_prefix (with_cost c result)
                (with_cost c (search_emitted t inputPatterns))) /\
  result = firstn (Z.to_nat k) full /\
  is_prefix result full /\
  Permutation full (search_emitted t inputPatterns) /\
  sorted_by_cost full /\
  (forall c, with_cost c full = with_cost c (search_emitted t inputPatterns)) /\
  (forall k',
      Z.of_nat (List.length (search_emitted t inputPatterns)) <= k' ->
      search t inputPatterns k' = full).
Proof.
  intros Hk result full. subst result full.
  rewrite search_slice, slice0_nonneg by assumption.
  repeat apply conj.
  - pose proof (firstn_le_length (Z.to_nat k) (search_full t inputPatterns)).
    lia.
  - apply sorted_by_cost_firstn, search_full_sorted.
  - intros c.
    rewrite <- (sort_by_cost_stable c (search_emitted t inputPatterns)).
    apply with_cost_firstn.
  - reflexivity.
  - exists (skipn (Z.to_nat k) (search_full t inputPatterns)).
    now rewrite firstn_skipn.
  - apply search_full_perm.
  - apply search_full_sorted.
  - intros c. apply sort_by_cost_stable.
  - intros k' Hk'. now apply search_all.
Qed.

Lemma C5_ranking_truncation_witness :
  search cat_car_trie (cat_query ++ ["000000"%string]) 1 =
  firstn 1 (search_full cat_car_trie (cat_query ++ ["000000"%string])).
Proof.
  destruct (C5_ranking_truncation cat_car_trie
              (cat_query ++ ["000000"%string]) 1) as (_ & _ & _ & Hcut & _).
  - lia.
  - exact Hcut.
Defined.

(** C6, as the claim states it, fails: with [maxSuggestions = -1] and two
    pushed records [search] returns the first of them. *)
Lemma C6_counterexample :
  -1 <= 0 /\
  search_emitted cat_car_trie cat_query =
    [mkSuggestion cat 0; mkSuggestion car 2] /\
  search cat_car_trie cat_query (-1) = [mkSuggestion cat 0] /\
  search cat_car_trie cat_query (-1) <> [].
Proof.
  split; [lia |].
  repeat split; [vm_compute; reflexivity .. | vm_compute; discriminate].
Qed.

(** C6, amended.  With [maxSuggestions = 0] the result of [search] is
    empty, for every trie and every query.  With a negative
    [maxSuggestions = - m] it is the full ranked list without its last [m]
    records, so it is empty exactly when at most [m] records are ranked. *)
Theorem C6_nonpositive_maxSuggestions (t : Trie)
  (inputPatterns : list string) :
  search t inputPatterns 0 = [] /\
  (forall k, k < 0 ->
     let full := search_full t inputPatterns in
     search t inputPatterns k =
       firstn (List.length full - Z.to_nat (- k)) full /\
     (search t inputPatterns k = [] <->
      Z.of_nat (List.length full) <= - k)).
Proof.
  split.
  - now rewrite search_slice, slice0_nonneg by lia.
  - intros k Hk full. subst full.
    rewrite search_slice, slice0_negative by assumption.
    split; [reflexivity |].
    set (full := search_full t inputPatterns).
    split.
    + intros Hnil. apply (f_equal (@List.length _)) in Hnil.
      rewrite length_firstn in Hnil. cbn in Hnil. lia.
    + intros Hle.
      replace (List.length full - Z.to_nat (- k))%nat with O by lia.
      reflexivity.
Qed.

Lemma C6_nonpositive_maxSuggestions_witness :
  search cat_car_trie cat_query 0 = [] /\
  search cat_car_trie cat_query (-2) = [].
Proof.
  destruct (C6_nonpositive_maxSuggestions cat_car_trie cat_query)
    as (Hzero & Hneg).
  split; [exact Hzero |].
  destruct (Hneg (-2)) as (_ & Hempty); [lia |].
  apply Hempty. vm_compute. discriminate.
Defined.

(** C7.  The traversal of [search] never goes through an edge whose symbol
    has no pattern: the word of every visit is over symbols with a pattern.
    So a word with such a symbol is in no result of [search], whatever the
    trie (the one [insert] has just put it in, and any other), the query
    and [maxSuggestions], although [insert] did add it. *)
Theorem C7_unknown_symbol_pruning (t : Trie) (w : list ascii) :
  (exists char, In char w /\ letterToPattern char = None) ->
  contains (insert t w) w = true /\
  (forall inputPatterns k,
      ~ In w (map word (search (insert t w) inputPatterns k))) /\
  (forall t' inputPatterns k,
      ~ In w (map word (search t' inputPatterns k))) /\
  (forall t' inputPatterns node currentWord dp,
      In (node, currentWord, dp) (search_calls t' inputPatterns) ->
      descends t' currentWord node /\
      forall char, In char currentWord -> letterToPattern char <> None).
Proof.
  intros (char & Hchar & Hnone).
  assert (Hnever : forall t' inputPatterns k,
             ~ In w (map word (search t' inputPatterns k))).
  { intros t' inputPatterns k Hin.
    apply search_words_reached, words_of_patterned in Hin.
    apply has_pattern_all with (char := char) in Hin; [| assumption].
    contradiction. }
  split; [| split; [| split]].
  - rewrite contains_insert.
    now rewrite (proj2 (word_eqb_eq w w) eq_refl).
  - intros inputPatterns k. apply Hnever.
  - exact Hnever.
  - intros t' inputPatterns node currentWord dp Hcall.
    destruct inputPatterns as [| p q]; [contradiction |].
    rewrite search_calls_nonempty in Hcall by discriminate.
    destruct (_search_calls_path _ _ _ _ _ _ _ Hcall)
      as (path & -> & Hdesc & Hall).
    split; [exact Hdesc | now apply has_pattern_all].
Qed.

Lemma C7_unknown_symbol_pruning_witness :
  contains (insert cat_trie ["c"; "4"]%char) ["c"; "4"]%char = true /\
  (In ["c"; "4"]%char
      (map word (search (insert cat_trie ["c"; "4"]%char) cat_query 5)) ->
   False).
Proof.
  destruct (C7_unknown_symbol_pruning cat_trie ["c"; "4"]%char)
    as (Hin & Hout & _).
  - exists "4"%char. split; [right; left; reflexivity | reflexivity].
  - split; [exact Hin | apply Hout].
Defined.

(** C8.  Inserting a word twice gives the trie that inserting it once
    gives, so every later [search] returns the same list; and in a result
    of [search] the word occurs at most once (the keys of a [children]
    object being distinct, as they are in every trie that [insert]
    builds). *)
Theorem C8_insert_idempotent (t : Trie) (w : list ascii) :
  insert (insert t w) w = insert t w /\
  (forall inputPatterns k,
      search (insert (insert t w) w) inputPatterns k =
      search (insert t w) inputPatterns k) /\
  (distinct_keys t = true ->
   forall inputPatterns k,
     (count_occ word_eq_dec
        (map word (search (insert (insert t w) w) inputPatterns k)) w
      <= 1)%nat).
Proof.
  split; [apply insert_twice |].
  split; [intros; now rewrite insert_twice |].
  intros Ht inputPatterns k. rewrite insert_twice.
  apply NoDup_count_occ, search_words_NoDup.
  now apply distinct_keys_insert.
Qed.

Lemma C8_insert_idempotent_witness :
  distinct_keys newTrie = true /\
  search (insert (insert newTrie cat) cat) cat_query 5 = [mkSuggestion cat 0] /\
  (count_occ word_eq_dec
     (map word (search (insert (insert newTrie cat) cat) cat_query 5)) cat
   <= 1)%nat.
Proof.
  destruct (C8_insert_idempotent newTrie cat) as (_ & Hsame & Honce).
  split; [reflexivity |].
  split; [rewrite Hsame; reflexivity |].
  apply Honce. reflexivity.
Defined.

(** C9, as the claim states it, fails: [insert("")] marks the root, and a
    later [search] returns a record for the empty word. *)
Lemma C9_counterexample :
  insert newTrie [] <> newTrie /\
  search newTrie ["100000"%string] 5 = [] /\
  search (insert newTrie []) ["100000"%string] 5 = [mkSuggestion [] 3].
Proof. repeat split. discriminate. Qed.

(** C9, amended.  [insert("")] creates no node: it leaves the children of
    the root as they are and sets the root's end-of-word mark.  On a trie
    whose root is marked already it changes nothing.  On any other trie,
    every later traversal over a query of [n >= 1] patterns pushes one more
    record, the empty word at cost [3 n], ahead of the records it pushed
    before. *)
Theorem C9_insert_empty (t : Trie) :
  children (insert t []) = children t /\
  isEnd (insert t []) = true /\
  (isEnd t = true -> insert t [] = t) /\
  (isEnd t = false ->
   forall inputPatterns,
     inputPatterns <> [] ->
     search_emitted (insert t []) inputPatterns =
     mkSuggestion [] (3 * Z.of_nat (List.length inputPatterns))
       :: search_emitted t inputPatterns).
Proof.
  destruct t as [cs e]. cbn [insert children isEnd].
  split; [reflexivity |]. split; [reflexivity |].
  split; [intros ->; reflexivity |].
  intros -> inputPatterns Hne.
  rewrite !search_emitted_calls, !search_calls_nonempty by assumption.
  rewrite !_search_calls_unfold.
  cbn [flat_map pushed isEnd app].
  rewrite totalCost_initialDp. unfold deletionCost.
  now rewrite Z.mul_comm.
Qed.

Lemma C9_insert_empty_witness :
  isEnd cat_trie = false /\
  search_emitted (insert cat_trie []) cat_query =
  mkSuggestion [] 9 :: search_emitted cat_trie cat_query.
Proof.
  destruct (C9_insert_empty cat_trie) as (_ & _ & _ & Hmore).
  split; [reflexivity |].
  apply Hmore; [reflexivity | discriminate].
Defined.

(** C10.  For a trie built from the empty one by a sequence of [insert]
    calls, a non-empty query and [maxSuggestions] at least the number of
    pushed records, the words in the result of [search] are exactly the
    inserted words all of whose symbols have a pattern, each of them once. *)
Theorem C10_sound_complete (words : list (list ascii))
  (inputPatterns : list string) (k : Z) :
  let t := insert_all newTrie words in
  inputPatterns <> [] ->
  Z.of_nat (List.length (search_emitted t inputPatterns)) <= k ->
  (forall w,
      In w (map word (search t inputPatterns k)) <->
      In w words /\ forall char, In char w -> letterToPattern char <> None) /\
  NoDup (map word (search t inputPatterns k)) /\
  (forall w,
      In w words ->
      (forall char, In char w -> letterToPattern char <> None) ->
      count_occ word_eq_dec (map word (search t inputPatterns k)) w = 1%nat).
Proof.
  intros t Hne Hk.
  assert (Ht : distinct_keys t = true)
    by (apply distinct_keys_insert_all; reflexivity).
  assert (Hperm : Permutation (map word (search t inputPatterns k))
                              (words_of t)).
  { rewrite <- (search_emitted_words t inputPatterns Hne).
    apply Permutation_map.
    rewrite (search_all t inputPatterns k Hk). apply search_full_perm. }
  assert (Hheld : forall w, contains t w = true <-> In w words).
  { intros w. unfold t. rewrite contains_insert_all, contains_newTrieNode.
    rewrite orb_false_r, existsb_exists. split.
    - intros (x & Hx & Heq). apply word_eqb_eq in Heq. now subst.
    - intros Hw. exists w. split; [assumption | now apply word_eqb_eq]. }
  assert (Hiff : forall w,
             In w (map word (search t inputPatterns k)) <->
             In w words /\
             forall char, In char w -> letterToPattern char <> None).
  { intros w. split.
    - intros H. apply (Permutation_in _ Hperm) in H.
      apply (words_of_contains w t Ht) in H. destruct H as [Hall Hin].
      split; [now apply Hheld | now apply has_pattern_all].
    - intros [Hin Hall]. apply (Permutation_in _ (Permutation_sym Hperm)).
      apply (words_of_contains w t Ht).
      split; [now apply has_pattern_all | now apply Hheld]. }
  assert (Hnd : NoDup (map word (search t inputPatterns k)))
    by now apply search_words_NoDup.
  split; [exact Hiff |]. split; [exact Hnd |].
  intros w Hw Hsym.
  apply (proj1 (NoDup_count_occ' word_eq_dec _) Hnd).
  apply Hiff. now split.
Qed.

Lemma C10_sound_complete_witness :
  map word (search (insert_all newTrie [cat; ["c"; "4"]%char; car])
                   cat_query 5) = [cat; car] /\
  count_occ word_eq_dec
    (map word (search (insert_all newTrie [cat; ["c"; "4"]%char; car])
                      cat_query 5))
    cat = 1%nat.
Proof.
  split; [reflexivity |].
  destruct (C10_sound_complete [cat; ["c"; "4"]%char; car] cat_query 5)
    as (_ & _ & Honce).
  - discriminate.
  - vm_compute. discriminate.
  - apply Honce.
    + now left.
    + intros char [<- | [<- | [<- | []]]]; discriminate.
Defined.

(** * Further properties of the engine *)

(** ** What a traversal pushes, record by record *)

Lemma pushed_records node :
  forall currentWord dp inputPatterns,
    flat_map (pushed (List.length inputPatterns))
             (_search_calls node currentWord dp inputPatterns) =
    map (fun path =>
           mkSuggestion (currentWord ++ path)
             (totalCost (row_of inputPatterns dp path)
                        (List.length inputPatterns)))
        (words_of node).
Proof.
  induction node as [cs e IH] using TrieNode_nested_ind.
  intros currentWord dp inputPatterns.
  rewrite _search_calls_unfold, words_of_unfold.
  cbn [flat_map pushed isEnd]. rewrite map_app. f_equal.
  - destruct e; cbn; [now rewrite app_nil_r | reflexivity].
  - induction IH as [| [k child] tl Hchild _ IHtl]; cbn [flat_map fst snd];
      [reflexivity |].
    rewrite flat_map_app, map_app, IHtl. f_equal.
    unfold has_pattern.
    destruct (letterToPattern k) as [pattern|] eqn:Hk; [| reflexivity].
    rewrite Hchild, map_map. apply map_ext. intros tail.
    cbn [row_of]. rewrite Hk. now rewrite <- app_assoc.
Qed.

(** The records [search] ranks: one per reached word, with the cost of the
    word. *)
Lemma search_emitted_records t inputPatterns :
  inputPatterns <> [] ->
  search_emitted t inputPatterns = map (record_of inputPatterns) (words_of t).
Proof.
  intros Hne.
  rewrite search_emitted_calls, (search_calls_nonempty _ _ Hne), pushed_records.
  reflexivity.
Qed.

(** ** Bounds on rows and costs *)

Lemma initialDp_length_bound n : length_bound n 0 (initialDp n).
Proof.
  intros j Hj. rewrite initialDp_cell by assumption.
  unfold deletionCost. lia.
Qed.

Lemma newDp_length_bound pattern dp inputPatterns d :
  length_bound (List.length inputPatterns) d dp ->
  length_bound (List.length inputPatterns) (S d)
               (newDp pattern dp inputPatterns).
Proof.
  intros Hdp j. induction j as [| j IH]; intros Hj.
  - rewrite newDp_cell_0. specialize (Hdp O Hj).
    unfold deletionCost in *. lia.
  - rewrite newDp_cell_S by lia.
    replace (S j - 1)%nat with j by lia.
    pose proof (Hdp (S j) Hj) as Hup.
    pose proof (Hdp j ltac:(lia)) as Hdiag.
    pose proof (IH ltac:(lia)) as Hleft.
    pose proof (_hammingDistance_range pattern (query_at inputPatterns j)).
    unfold min3, deletionCost in *. lia.
Qed.

Lemma row_of_length inputPatterns path :
  forall dp,
    List.length dp = (List.length inputPatterns + 1)%nat ->
    List.length (row_of inputPatterns dp path) =
    (List.length inputPatterns + 1)%nat.
Proof.
  induction path as [| char rest IH]; intros dp Hdp; cbn [row_of];
    [exact Hdp |].
  destruct (letterToPattern char); [| exact Hdp].
  apply IH, newDp_length.
Qed.

Lemma row_of_length_bound inputPatterns path :
  forall dp d,
    forallb has_pattern path = true ->
    length_bound (List.length inputPatterns) d dp ->
    length_bound (List.length inputPatterns) (d + List.length path)
                 (row_of inputPatterns dp path).
Proof.
  induction path as [| char rest IH]; intros dp d Hall Hdp;
    cbn [row_of List.length].
  - now rewrite Nat.add_0_r.
  - cbn [forallb] in Hall. apply andb_true_iff in Hall.
    destruct Hall as [Hchar Hall]. unfold has_pattern in Hchar.
    destruct (letterToPattern char) as [pattern|]; [| discriminate].
    replace (d + S (List.length rest))%nat
      with (S d + List.length rest)%nat by lia.
    apply IH; [assumption | now apply newDp_length_bound].
Qed.

Lemma row_of_cell_0 inputPatterns path :
  forall dp,
    forallb has_pattern path = true ->
    cell (row_of inputPatterns dp path) 0 =
    cell dp 0 + deletionCost * Z.of_nat (List.length path).
Proof.
  induction path as [| char rest IH]; intros dp Hall; cbn [row_of List.length].
  - lia.
  - cbn [forallb] in Hall. apply andb_true_iff in Hall.
    destruct Hall as [Hchar Hall]. unfold has_pattern in Hchar.
    destruct (letterToPattern char) as [pattern|]; [| discriminate].
    rewrite (IH _ Hall), newDp_cell_0. unfold deletionCost. lia.
Qed.

(** The cost of a word is at least what the difference in length costs, and
    at most what deleting the word and inserting the query costs. *)
Lemma word_cost_bounds inputPatterns w :
  forallb has_pattern w = true ->
  deletionCost *
    Z.abs (Z.of_nat (List.length inputPatterns) - Z.of_nat (List.length w))
  <= word_cost inputPatterns w
  <= deletionCost *
     (Z.of_nat (List.length inputPatterns) + Z.of_nat (List.length w)).
Proof.
  intros Hall. unfold word_cost.
  set (n := List.length inputPatterns).
  set (row := row_of inputPatterns (initialDp n) w).
  assert (Hlen : List.length row = (n + 1)%nat)
    by (apply row_of_length, initialDp_length).
  assert (Hlow : length_bound n (List.length w) row)
    by (apply (row_of_length_bound inputPatterns w (initialDp n) 0 Hall),
              initialDp_length_bound).
  assert (H0 : cell row 0 = deletionCost * Z.of_nat (List.length w)).
  { subst row. rewrite row_of_cell_0 by assumption.
    rewrite initialDp_cell by lia. unfold deletionCost. lia. }
  split.
  - destruct (totalCost_attained row n) as (j & Hj & ->).
    + destruct row; [cbn in Hlen; lia | discriminate].
    + specialize (Hlow j ltac:(lia)). unfold deletionCost in *. lia.
  - pose proof (totalCost_le row n 0 ltac:(lia)) as Hle.
    rewrite H0 in Hle. unfold deletionCost in *. lia.
Qed.

Lemma search_result_record t inputPatterns k r :
  In r (search t inputPatterns k) ->
  inputPatterns <> [] /\
  In (word r) (words_of t) /\
  r = record_of inputPatterns (word r).
Proof.
  intros Hr. apply search_incl_full in Hr.
  apply (Permutation_in _ (search_full_perm t inputPatterns)) in Hr.
  destruct inputPatterns as [| p q]; [contradiction |].
  split; [discriminate |].
  rewrite search_emitted_records in Hr by discriminate.
  apply in_map_iff in Hr. destruct Hr as (w & <- & Hw). now split.
Qed.

(** ** Hamming distance on patterns *)

Lemma differs_sym pattern1 pattern2 i :
  differs pattern1 pattern2 i = differs pattern2 pattern1 i.
Proof.
  unfold differs.
  destruct (String.get i pattern1), (String.get i pattern2); try reflexivity.
  now rewrite Ascii.eqb_sym.
Qed.

Lemma _hammingDistance_sym pattern1 pattern2 :
  _hammingDistance pattern1 pattern2 = _hammingDistance pattern2 pattern1.
Proof.
  unfold _hammingDistance. cbn [seq fold_left].
  now rewrite !(differs_sym pattern1 pattern2).
Qed.

Lemma _hammingDistance_zero_eq pattern1 pattern2 :
  String.length pattern1 = 6%nat ->
  String.length pattern2 = 6%nat ->
  _hammingDistance pattern1 pattern2 = 0 ->
  pattern1 = pattern2.
Proof.
  destruct pattern1 as [| a0 [| a1 [| a2 [| a3 [| a4 [| a5 [| ? ?]]]]]]];
    try discriminate.
  destruct pattern2 as [| b0 [| b1 [| b2 [| b3 [| b4 [| b5 [| ? ?]]]]]]];
    try discriminate.
  intros _ _. unfold _hammingDistance, differs.
  cbn [seq fold_left String.get].
  destruct (Ascii.eqb a0 b0) eqn:E0, (Ascii.eqb a1 b1) eqn:E1,
           (Ascii.eqb a2 b2) eqn:E2, (Ascii.eqb a3 b3) eqn:E3,
           (Ascii.eqb a4 b4) eqn:E4, (Ascii.eqb a5 b5) eqn:E5;
    cbn [negb]; try (intros Hd; exfalso; lia).
  intros _.
  apply Ascii.eqb_eq in E0, E1, E2, E3, E4, E5. now subst.
Qed.

Lemma binary_string_length len : forall p,
  binary_string len p = true -> String.length p = len.
Proof.
  induction len as [| len IH]; intros [| b p]; cbn; try discriminate;
    [reflexivity |].
  rewrite andb_true_iff. intros [_ Hp]. now rewrite (IH p Hp).
Qed.

(** Every pattern of the table is a width-6 binary string. *)
Lemma letterToPattern_valid char pattern :
  letterToPattern char = Some pattern -> valid_pattern pattern = true.
Proof.
  destruct char as [[] [] [] [] [] [] [] []]; cbn;
    intros [= <-] || discriminate; reflexivity.
Qed.

Lemma valid_query_at inputPatterns d :
  valid_query inputPatterns = true ->
  (d < List.length inputPatterns)%nat ->
  valid_pattern (query_at inputPatterns d) = true.
Proof.
  unfold valid_query, query_at. rewrite forallb_forall.
  intros Hall Hd. apply Hall. now apply nth_In.
Qed.

(** ** Exact matches *)

Lemma row_of_agrees_zero inputPatterns path :
  forall dp d,
    agrees inputPatterns d path ->
    (d + List.length path <= List.length inputPatterns)%nat ->
    length_bound (List.length inputPatterns) d dp ->
    cell dp d = 0 ->
    cell (row_of inputPatterns dp path) (d + List.length path) = 0.
Proof.
  induction path as [| char rest IH]; intros dp d Hagree Hle Hlow Hzero;
    cbn [row_of List.length agrees] in *.
  - now rewrite Nat.add_0_r.
  - destruct Hagree as [Hchar Hrest].
    destruct (letterToPattern char) as [pattern|]; [| contradiction].
    replace (d + S (List.length rest))%nat
      with (S d + List.length rest)%nat by lia.
    pose proof (newDp_length_bound pattern dp inputPatterns d Hlow) as Hnew.
    apply IH; try assumption; [lia |].
    pose proof (Hnew (S d) ltac:(lia)) as Hge.
    rewrite newDp_cell_S in * by lia.
    replace (S d - 1)%nat with d in * by lia.
    rewrite Hchar, Hzero in *.
    unfold min3, deletionCost in *. lia.
Qed.

Lemma row_of_zero_agrees inputPatterns path :
  forall dp d,
    forallb has_pattern path = true ->
    (d + List.length path <= List.length inputPatterns)%nat ->
    length_bound (List.length inputPatterns) d dp ->
    cell (row_of inputPatterns dp path) (d + List.length path) = 0 ->
    cell dp d = 0 /\ agrees inputPatterns d path.
Proof.
  induction path as [| char rest IH]; intros dp d Hall Hle Hlow Hzero;
    cbn [row_of List.length agrees forallb] in *.
  - rewrite Nat.add_0_r in Hzero. now split.
  - apply andb_true_iff in Hall. destruct Hall as [Hchar Hall].
    unfold has_pattern in Hchar.
    destruct (letterToPattern char) as [pattern|]; [| discriminate].
    replace (d + S (List.length rest))%nat
      with (S d + List.length rest)%nat in Hzero by lia.
    pose proof (newDp_length_bound pattern dp inputPatterns d Hlow) as Hnew.
    destruct (IH _ (S d) Hall ltac:(lia) Hnew Hzero) as [Hcell Hrest].
    rewrite newDp_cell_S in Hcell by lia.
    replace (S d - 1)%nat with d in Hcell by lia.
    pose proof (Hlow (S d) ltac:(lia)) as Hup.
    pose proof (Hlow d ltac:(lia)) as Hdiag.
    pose proof (Hnew d ltac:(lia)) as Hleft.
    pose proof (_hammingDistance_range pattern (query_at inputPatterns d)).
    unfold min3, deletionCost in *.
    repeat split; try assumption; lia.
Qed.

(** A word costs 0 exactly when it is as long as the query and matches it
    symbol by symbol. *)
Lemma word_cost_zero inputPatterns w :
  forallb has_pattern w = true ->
  (word_cost inputPatterns w = 0 <->
   List.length w = List.length inputPatterns /\ agrees inputPatterns 0 w).
Proof.
  intros Hall. unfold word_cost.
  set (n := List.length inputPatterns).
  set (row := row_of inputPatterns (initialDp n) w).
  assert (Hlen : List.length row = (n + 1)%nat)
    by (apply row_of_length, initialDp_length).
  assert (Hlow : length_bound n (List.length w) row)
    by (apply (row_of_length_bound inputPatterns w (initialDp n) 0 Hall),
              initialDp_length_bound).
  split.
  - intros Hzero.
    destruct (totalCost_attained row n) as (j & Hj & Heq).
    { destruct row; [cbn in Hlen; lia | discriminate]. }
    rewrite Hzero in Heq.
    pose proof (Hlow j ltac:(lia)) as Hge.
    assert (Hjn : j = n) by (unfold deletionCost in *; lia).
    subst j.
    assert (Hwn : List.length w = n) by (unfold deletionCost in *; lia).
    split; [exact Hwn |].
    apply (row_of_zero_agrees inputPatterns w (initialDp n) 0 Hall).
    + fold n. cbn. lia.
    + apply initialDp_length_bound.
    + cbn [Nat.add]. rewrite Hwn. fold row. unfold deletionCost in *. lia.
  - intros [Hwn Hagree].
    assert (Hcell : cell row n = 0).
    { assert (H : cell row (0 + List.length w) = 0).
      { apply (row_of_agrees_zero inputPatterns w (initialDp n) 0 Hagree).
        - fold n. cbn. lia.
        - apply initialDp_length_bound.
        - now rewrite initialDp_cell by lia. }
      cbn [Nat.add] in H. now rewrite Hwn in H. }
    pose proof (totalCost_le row n n ltac:(lia)) as Hle.
    destruct (totalCost_attained row n) as (j & Hj & Heq).
    { destruct row; [cbn in Hlen; lia | discriminate]. }
    pose proof (Hlow j ltac:(lia)) as Hge.
    rewrite Hcell in Hle. unfold deletionCost in *. lia.
Qed.

Lemma patterns_of_cons char rest :
  patterns_of (char :: rest) =
  match letterToPattern char with
  | Some pattern => pattern :: patterns_of rest
  | None => patterns_of rest
  end.
Proof.
  unfold patterns_of. cbn [flat_map].
  now destruct (letterToPattern char).
Qed.

Lemma patterns_of_length w :
  forallb has_pattern w = true ->
  List.length (patterns_of w) = List.length w.
Proof.
  induction w as [| char rest IH]; [reflexivity |].
  cbn [forallb]. rewrite andb_true_iff. intros [Hchar Hall].
  rewrite patterns_of_cons. unfold has_pattern in Hchar.
  destruct (letterToPattern char); [| discriminate].
  cbn. now rewrite IH.
Qed.

Lemma skipn_query_at inputPatterns d :
  (d < List.length inputPatterns)%nat ->
  skipn d inputPatterns =
  query_at inputPatterns d :: skipn (S d) inputPatterns.
Proof.
  unfold query_at. revert d.
  induction inputPatterns as [| x q IH]; intros d Hd; cbn in Hd; [lia |].
  destruct d as [| d]; [reflexivity |].
  cbn [skipn nth]. rewrite IH by lia. reflexivity.
Qed.

Lemma agrees_patterns inputPatterns path :
  forall d,
    valid_query inputPatterns = true ->
    (d + List.length path <= List.length inputPatterns)%nat ->
    agrees inputPatterns d path ->
    patterns_of path = firstn (List.length path) (skipn d inputPatterns).
Proof.
  induction path as [| char rest IH]; intros d Hvalid Hle Hagree;
    [reflexivity |].
  cbn [agrees List.length] in *. destruct Hagree as [Hchar Hrest].
  rewrite patterns_of_cons.
  destruct (letterToPattern char) as [pattern|] eqn:Hpat; [| contradiction].
  rewrite skipn_query_at by lia. cbn [firstn]. f_equal.
  - apply _hammingDistance_zero_eq; [| | exact Hchar].
    + apply (binary_string_length 6), (letterToPattern_valid char), Hpat.
    + apply (binary_string_length 6), valid_query_at; [assumption | lia].
  - apply IH; [assumption | lia | assumption].
Qed.

Lemma patterns_agree inputPatterns path :
  forall d,
    forallb has_pattern path = true ->
    (d + List.length path <= List.length inputPatterns)%nat ->
    patterns_of path = firstn (List.length path) (skipn d inputPatterns) ->
    agrees inputPatterns d path.
Proof.
  induction path as [| char rest IH]; intros d Hall Hle Heq; [exact I |].
  cbn [agrees List.length forallb] in *.
  apply andb_true_iff in Hall. destruct Hall as [Hchar Hall].
  rewrite patterns_of_cons in Heq. unfold has_pattern in Hchar.
  destruct (letterToPattern char) as [pattern|]; [| discriminate].
  rewrite skipn_query_at in Heq by lia. cbn [firstn] in Heq.
  injection Heq as Hhead Htail. split.
  - rewrite <- Hhead. apply _hammingDistance_same.
  - apply IH; [assumption | lia | assumption].
Qed.

(** On a well-formed query, cost 0 means that the patterns of the word are
    the query. *)
Lemma word_cost_zero_exact inputPatterns w :
  valid_query inputPatterns = true ->
  forallb has_pattern w = true ->
  (word_cost inputPatterns w = 0 <-> patterns_of w = inputPatterns).
Proof.
  intros Hvalid Hall. rewrite (word_cost_zero inputPatterns w Hall). split.
  - intros [Hlen Hagree].
    rewrite (agrees_patterns inputPatterns w 0 Hvalid) by (assumption || lia).
    cbn [skipn]. rewrite Hlen. apply firstn_all.
  - intros Heq.
    assert (Hlen : List.length w = List.length inputPatterns)
      by (rewrite <- Heq; symmetry; now apply patterns_of_length).
    split; [exact Hlen |].
    apply patterns_agree; [assumption | lia |].
    cbn [skipn]. rewrite Hlen, firstn_all. exact Heq.
Qed.

Lemma In_all_ascii a : In a all_ascii.
Proof.
  unfold all_ascii. rewrite <- (ascii_nat_embedding a).
  apply in_map, in_seq. pose proof (nat_ascii_bounded a). lia.
Qed.

Lemma letterToPattern_inj a b pattern :
  letterToPattern a = Some pattern ->
  letterToPattern b = Some pattern ->
  a = b.
Proof.
  intros Ha Hb.
  assert (Hcheck : patterns_distinct = true) by (vm_compute; reflexivity).
  unfold patterns_distinct in Hcheck. rewrite forallb_forall in Hcheck.
  specialize (Hcheck a (In_all_ascii a)). rewrite forallb_forall in Hcheck.
  specialize (Hcheck b (In_all_ascii b)). rewrite Ha, Hb in Hcheck.
  rewrite String.eqb_refl in Hcheck. now apply Ascii.eqb_eq.
Qed.

Lemma patterns_of_inj w1 :
  forall w2,
    forallb has_pattern w1 = true ->
    forallb has_pattern w2 = true ->
    patterns_of w1 = patterns_of w2 ->
    w1 = w2.
Proof.
  induction w1 as [| a w1 IH]; intros [| b w2] H1 H2 Heq;
    cbn [forallb] in *; try reflexivity.
  - apply andb_true_iff in H2. destruct H2 as [Hb _].
    rewrite patterns_of_cons in Heq. unfold has_pattern in Hb.
    destruct (letterToPattern b); discriminate.
  - apply andb_true_iff in H1. destruct H1 as [Ha _].
    rewrite patterns_of_cons in Heq. unfold has_pattern in Ha.
    destruct (letterToPattern a); discriminate.
  - apply andb_true_iff in H1, H2.
    destruct H1 as [Ha H1], H2 as [Hb H2].
    rewrite !patterns_of_cons in Heq. unfold has_pattern in Ha, Hb.
    destruct (letterToPattern a) as [pa|] eqn:Hpa; [| discriminate].
    destruct (letterToPattern b) as [pb|] eqn:Hpb; [| discriminate].
    injection Heq as -> Htail.
    f_equal; [exact (letterToPattern_inj a b pb Hpa Hpb) | now apply IH].
Qed.

Lemma patterns_of_valid w : valid_query (patterns_of w) = true.
Proof.
  unfold valid_query. apply forallb_forall. intros p Hp.
  unfold patterns_of in Hp. apply in_flat_map in Hp.
  destruct Hp as (char & _ & Hp).
  destruct (letterToPattern char) as [pattern|] eqn:Hpat; [| contradiction].
  destruct Hp as [<- | []]. exact (letterToPattern_valid char pattern Hpat).
Qed.

(** ** Hamming distance as a sum over the six positions *)

Lemma _hammingDistance_sum pattern1 pattern2 :
  _hammingDistance pattern1 pattern2 =
  differs_count pattern1 pattern2 0 + differs_count pattern1 pattern2 1 +
  differs_count pattern1 pattern2 2 + differs_count pattern1 pattern2 3 +
  differs_count pattern1 pattern2 4 + differs_count pattern1 pattern2 5.
Proof.
  unfold _hammingDistance, differs_count. cbn [seq fold_left].
  repeat match goal with
         | |- context [if differs ?a ?b ?i then _ else _] =>
             destruct (differs a b i)
         end; reflexivity.
Qed.

Lemma differs_count_triangle pattern1 pattern2 pattern3 i :
  differs_count pattern1 pattern3 i <=
  differs_count pattern1 pattern2 i + differs_count pattern2 pattern3 i.
Proof.
  unfold differs_count, differs.
  destruct (String.get i pattern1) as [a|], (String.get i pattern2) as [b|],
           (String.get i pattern3) as [c|];
    repeat match goal with
           | |- context [Ascii.eqb ?x ?y] =>
               let E := fresh "E" in destruct (Ascii.eqb x y) eqn:E
           end;
    cbn [negb]; try lia.
  repeat match goal with
         | E : Ascii.eqb _ _ = true |- _ => apply Ascii.eqb_eq in E
         end.
  subst.
  match goal with
  | E : Ascii.eqb ?x ?x = false |- _ =>
      rewrite Ascii.eqb_refl in E; discriminate
  end.
Qed.

Lemma differs_substring pattern1 pattern2 i :
  (i < 6)%nat ->
  differs (substring 0 6 pattern1) (substring 0 6 pattern2) i =
  differs pattern1 pattern2 i.
Proof.
  intros Hi. unfold differs.
  rewrite !substring_correct1 by assumption.
  now rewrite Nat.add_0_r.
Qed.

(** ** Sorted lists of costs *)

Lemma sorted_costs l :
  sorted_by_cost l -> StronglySorted Z.le (map cost l).
Proof.
  unfold sorted_by_cost. induction 1 as [| a tl _ IH Ha]; cbn; constructor.
  - exact IH.
  - rewrite Forall_forall in *. intros c Hc.
    apply in_map_iff in Hc. destruct Hc as (r & <- & Hr). auto.
Qed.

Lemma sorted_Z_perm_eq l1 :
  forall l2,
    StronglySorted Z.le l1 -> StronglySorted Z.le l2 ->
    Permutation l1 l2 -> l1 = l2.
Proof.
  induction l1 as [| a t1 IH]; intros l2 H1 H2 Hperm.
  - now apply Permutation_nil in Hperm.
  - destruct l2 as [| b t2];
      [apply Permutation_sym, Permutation_nil in Hperm; discriminate |].
    apply StronglySorted_inv in H1, H2.
    destruct H1 as [H1 Ha], H2 as [H2 Hb].
    rewrite Forall_forall in Ha, Hb.
    assert (Hab : a <= b).
    { assert (Hin : In b (a :: t1))
        by (apply (Permutation_in _ (Permutation_sym Hperm)); now left).
      destruct Hin as [<- | Hin]; [lia | auto]. }
    assert (Hba : b <= a).
    { assert (Hin : In a (b :: t2))
        by (apply (Permutation_in _ Hperm); now left).
      destruct Hin as [<- | Hin]; [lia | auto]. }
    assert (a = b) by lia. subst b.
    f_equal. apply IH; try assumption.
    now apply Permutation_cons_inv in Hperm.
Qed.

Lemma sorted_by_cost_head r rest x :
  sorted_by_cost (r :: rest) -> In x (r :: rest) -> cost r <= cost x.
Proof.
  unfold sorted_by_cost. intros Hs Hx.
  apply StronglySorted_inv in Hs. destruct Hs as [_ Hr].
  rewrite Forall_forall in Hr.
  destruct Hx as [<- | Hx]; [lia | auto].
Qed.

(** ** The reached words of a built trie *)

Lemma words_of_insert t w w' :
  distinct_keys t = true ->
  (In w' (words_of (insert t w)) <->
   In w' (words_of t) \/ (w' = w /\ forallb has_pattern w = true)).
Proof.
  intros Ht.
  rewrite (words_of_contains w' (insert t w))
    by now apply distinct_keys_insert.
  rewrite (words_of_contains w' t Ht), contains_insert, orb_true_iff.
  rewrite word_eqb_eq. split.
  - intros (Hall & [<- | Hold]); [right; now split | left; now split].
  - intros [[Hall Hold] | [-> Hall]]; split; auto.
Qed.

Lemma words_of_insert_all words w :
  In w (words_of (insert_all newTrie words)) <->
  In w words /\ forallb has_pattern w = true.
Proof.
  rewrite words_of_contains
    by (apply distinct_keys_insert_all; reflexivity).
  rewrite contains_insert_all, contains_newTrieNode, orb_false_r.
  rewrite existsb_exists. split.
  - intros (Hall & x & Hx & Heq). apply word_eqb_eq in Heq. subst. now split.
  - intros [Hw Hall]. split; [assumption |].
    exists w. split; [assumption | now apply word_eqb_eq].
Qed.

Lemma words_of_same_words words1 words2 :
  (forall w, In w words1 <-> In w words2) ->
  Permutation (words_of (insert_all newTrie words1))
              (words_of (insert_all newTrie words2)).
Proof.
  intros Hsame. apply NoDup_Permutation.
  - apply words_of_NoDup, distinct_keys_insert_all. reflexivity.
  - apply words_of_NoDup, distinct_keys_insert_all. reflexivity.
  - intros w. rewrite !words_of_insert_all, Hsame. reflexivity.
Qed.

Lemma search_full_records t inputPatterns :
  inputPatterns <> [] ->
  Permutation (search_full t inputPatterns)
              (map (record_of inputPatterns) (words_of t)).
Proof.
  intros Hne. rewrite <- search_emitted_records by assumption.
  apply search_full_perm.
Qed.

Lemma slice0_map {A B : Type} (f : A -> B) (arr : list A) k :
  map f (slice0 arr k) = slice0 (map f arr) k.
Proof. unfold slice0. now rewrite length_map, firstn_map. Qed.

Lemma has_pattern_filter words w :
  In w (filter (forallb has_pattern) words) <->
  In w words /\ forallb has_pattern w = true.
Proof. apply filter_In. Qed.

(** * Further properties, stated *)

(** X1.  [_hammingDistance] is a distance on width-6 strings: it lies
    between 0 and 6, is symmetric, satisfies the triangle inequality (these
    three for any strings at all), is 0 from a string to itself, and is 0
    between two strings of length 6 only if they are equal. *)
Theorem X1_hamming_is_distance (pattern1 pattern2 pattern3 : string) :
  0 <= _hammingDistance pattern1 pattern2 <= 6 /\
  _hammingDistance pattern1 pattern2 = _hammingDistance pattern2 pattern1 /\
  _hammingDistance pattern1 pattern3 <=
    _hammingDistance pattern1 pattern2 + _hammingDistance pattern2 pattern3 /\
  _hammingDistance pattern1 pattern1 = 0 /\
  (String.length pattern1 = 6%nat -> String.length pattern2 = 6%nat ->
   _hammingDistance pattern1 pattern2 = 0 -> pattern1 = pattern2).
Proof.
  split; [apply _hammingDistance_range |].
  split; [apply _hammingDistance_sym |].
  split; [| split; [apply _hammingDistance_same
                   | apply _hammingDistance_zero_eq]].
  rewrite !_hammingDistance_sum.
  pose proof (differs_count_triangle pattern1 pattern2 pattern3 0).
  pose proof (differs_count_triangle pattern1 pattern2 pattern3 1).
  pose proof (differs_count_triangle pattern1 pattern2 pattern3 2).
  pose proof (differs_count_triangle pattern1 pattern2 pattern3 3).
  pose proof (differs_count_triangle pattern1 pattern2 pattern3 4).
  pose proof (differs_count_triangle pattern1 pattern2 pattern3 5).
  lia.
Qed.

(** X2.  [_hammingDistance] compares the first six positions and nothing
    else: whatever the lengths of the two strings, the distance is that of
    their first six characters. *)
Theorem X2_hamming_first_six (pattern1 pattern2 : string) :
  _hammingDistance pattern1 pattern2 =
  _hammingDistance (substring 0 6 pattern1) (substring 0 6 pattern2).
Proof.
  unfold _hammingDistance. cbn [seq fold_left].
  now rewrite !differs_substring by lia.
Qed.

(** X3.  The cost of every record [search] returns is at least 3 times
    the difference between the length of the query and the length of the
    word, and at most 3 times the sum of the two lengths.  In particular no
    cost is negative. *)
Theorem X3_cost_bounds (t : Trie) (inputPatterns : list string) (k : Z)
  (r : Suggestion) :
  In r (search t inputPatterns k) ->
  let n := Z.of_nat (List.length inputPatterns) in
  let len := Z.of_nat (List.length (word r)) in
  0 <= 3 * Z.abs (n - len) <= cost r /\ cost r <= 3 * (n + len).
Proof.
  intros Hr n len. subst n len.
  destruct (search_result_record _ _ _ _ Hr) as (_ & Hw & Heq).
  apply words_of_patterned in Hw.
  pose proof (word_cost_bounds inputPatterns (word r) Hw) as Hb.
  rewrite Heq. cbn [cost word record_of]. unfold deletionCost in Hb. lia.
Qed.

Lemma X3_cost_bounds_witness :
  In (mkSuggestion car 5)
     (search cat_car_trie (cat_query ++ ["000000"%string]) 5) /\
  3 * Z.abs (4 - 3) <= 5 <= 3 * (4 + 3).
Proof.
  assert (Hin : In (mkSuggestion car 5)
                   (search cat_car_trie (cat_query ++ ["000000"%string]) 5))
    by (vm_compute; right; left; reflexivity).
  split; [exact Hin |].
  destruct (X3_cost_bounds _ _ _ _ Hin) as [[_ Hlow] Hup].
  split; [exact Hlow | exact Hup].
Defined.

(** X4.  The cost of a word depends on the word and the query only, not
    on the rest of the dictionary, on the order of insertion or on
    [maxSuggestions]: it is [word_cost], the [totalCost] of the row that
    [newDp] builds along the word.  Two searches over the same query give
    a word the same record. *)
Theorem X4_cost_independent_of_dictionary (t1 t2 : Trie)
  (inputPatterns : list string) (k1 k2 : Z) (r1 r2 : Suggestion) :
  In r1 (search t1 inputPatterns k1) ->
  In r2 (search t2 inputPatterns k2) ->
  word r1 = word r2 ->
  cost r1 = word_cost inputPatterns (word r1) /\ r1 = r2.
Proof.
  intros H1 H2 Hw.
  destruct (search_result_record _ _ _ _ H1) as (_ & _ & E1).
  destruct (search_result_record _ _ _ _ H2) as (_ & _ & E2).
  split; [now rewrite E1 at 1 |].
  rewrite E1, E2. now rewrite Hw.
Qed.

Lemma X4_cost_independent_of_dictionary_witness :
  In (mkSuggestion cat 3)
     (search cat_trie (cat_query ++ ["000000"%string]) 5) /\
  In (mkSuggestion cat 3)
     (search cat_car_trie (cat_query ++ ["000000"%string]) 1) /\
  word_cost (cat_query ++ ["000000"%string]) cat = 3.
Proof.
  assert (H1 : In (mkSuggestion cat 3)
                  (search cat_trie (cat_query ++ ["000000"%string]) 5))
    by (vm_compute; left; reflexivity).
  assert (H2 : In (mkSuggestion cat 3)
                  (search cat_car_trie (cat_query ++ ["000000"%string]) 1))
    by (vm_compute; left; reflexivity).
  split; [exact H1 |]. split; [exact H2 |].
  destruct (X4_cost_independent_of_dictionary _ _ _ _ _ _ _ H1 H2 eq_refl)
    as [Hcost _].
  symmetry. exact Hcost.
Defined.

(** X5.  On a well-formed query, a record of [search] has cost 0 exactly
    when the patterns of its word are the query, pattern for pattern. *)
Theorem X5_zero_cost_iff_exact (t : Trie) (inputPatterns : list string)
  (k : Z) (r : Suggestion) :
  valid_query inputPatterns = true ->
  In r (search t inputPatterns k) ->
  (cost r = 0 <-> patterns_of (word r) = inputPatterns).
Proof.
  intros Hvalid Hr.
  destruct (search_result_record _ _ _ _ Hr) as (_ & Hw & Heq).
  apply words_of_patterned in Hw.
  rewrite <- (word_cost_zero_exact inputPatterns (word r) Hvalid Hw).
  rewrite Heq at 1. reflexivity.
Qed.

Lemma X5_zero_cost_iff_exact_witness :
  valid_query cat_query = true /\
  In (mkSuggestion car 2) (search cat_car_trie cat_query 5) /\
  patterns_of car <> cat_query.
Proof.
  assert (Hin : In (mkSuggestion car 2) (search cat_car_trie cat_query 5))
    by (vm_compute; right; left; reflexivity).
  split; [reflexivity |]. split; [exact Hin |].
  intros Heq.
  apply (X5_zero_cost_iff_exact cat_car_trie cat_query 5
           (mkSuggestion car 2) eq_refl Hin) in Heq.
  discriminate Heq.
Defined.

(** The query made of the patterns of a reached word ranks that word
    first, at cost 0, and every other word at cost 1 or more. *)
Lemma exact_query_first (t : Trie) (w : list ascii) (k : Z) :
  In w (words_of t) ->
  w <> [] ->
  1 <= k ->
  hd_error (search t (patterns_of w) k) = Some (mkSuggestion w 0) /\
  (forall r, In r (search t (patterns_of w) k) -> word r <> w -> 1 <= cost r).
Proof.
  intros Hw Hne Hk.
  pose proof (words_of_patterned w t Hw) as Hall.
  set (q := patterns_of w).
  assert (Hq : q <> []).
  { intros Hnil. apply (f_equal (@List.length _)) in Hnil.
    subst q. rewrite patterns_of_length in Hnil by assumption.
    destruct w; [congruence | discriminate]. }
  assert (Hvalid : valid_query q = true) by apply patterns_of_valid.
  assert (Hzero : forall r, In r (search_full t q) ->
                            0 <= cost r /\ (cost r = 0 -> word r = w)).
  { intros r Hr.
    apply (Permutation_in _ (search_full_records t q Hq)) in Hr.
    apply in_map_iff in Hr. destruct Hr as (w' & <- & Hw').
    apply words_of_patterned in Hw'. cbn [record_of cost word]. split.
    - pose proof (word_cost_bounds q w' Hw'). unfold deletionCost in *. lia.
    - intros Hc. apply (word_cost_zero_exact q w' Hvalid Hw') in Hc.
      now apply patterns_of_inj. }
  assert (Hmine : In (mkSuggestion w 0) (search_full t q)).
  { apply (Permutation_in _ (Permutation_sym (search_full_records t q Hq))).
    apply in_map_iff. exists w. split; [| assumption].
    unfold record_of. f_equal.
    now apply (word_cost_zero_exact q w Hvalid Hall). }
  split.
  - rewrite search_slice, slice0_nonneg by lia.
    destruct (search_full t q) as [| r0 rest] eqn:Hfull; [contradiction |].
    destruct (Z.to_nat k) as [| k'] eqn:Hk'; [lia |]. cbn [firstn hd_error].
    f_equal.
    pose proof (search_full_sorted t q) as Hsorted. rewrite Hfull in Hsorted.
    pose proof (sorted_by_cost_head r0 rest _ Hsorted Hmine) as Hle.
    cbn [cost] in Hle.
    destruct (Hzero r0 (or_introl eq_refl)) as [Hge Hword].
    assert (Hc : cost r0 = 0) by lia.
    destruct r0 as [w0 c0]. cbn [cost word] in *.
    now rewrite Hc, (Hword Hc).
  - intros r Hr Hother. apply search_incl_full in Hr.
    destruct (Hzero r Hr) as [Hge Hword].
    destruct (Z.eq_dec (cost r) 0) as [Hc | Hc]; [| lia].
    now apply Hword in Hc.
Qed.

(** The number of records returned: the smaller of [maxSuggestions] and
    the number of reached words. *)
Lemma search_length (t : Trie) (inputPatterns : list string) (k : Z) :
  inputPatterns <> [] ->
  0 <= k ->
  List.length (search t inputPatterns k) =
  Nat.min (Z.to_nat k) (List.length (words_of t)).
Proof.
  intros Hne Hk.
  rewrite search_slice, slice0_nonneg, length_firstn by assumption.
  f_equal.
  now rewrite (Permutation_length (search_full_records _ _ Hne)), length_map.
Qed.

(** X6.  Typing a dictionary word exactly puts it first: for a trie built
    by [insert] from a list of words, a non-empty word of the list whose
    symbols all have a pattern, the query made of the patterns of its
    symbols and [maxSuggestions >= 1], the first record of [search] is that
    word at cost 0, and every record for another word costs at least 1. *)
Theorem X6_exact_typing_first (words : list (list ascii)) (w : list ascii)
  (k : Z) :
  In w words ->
  w <> [] ->
  (forall char, In char w -> letterToPattern char <> None) ->
  1 <= k ->
  let result := search (insert_all newTrie words) (patterns_of w) k in
  hd_error result = Some (mkSuggestion w 0) /\
  (forall r, In r result -> word r <> w -> 1 <= cost r).
Proof.
  intros Hw Hne Hall Hk result. subst result.
  apply exact_query_first; try assumption.
  apply words_of_insert_all. split; [assumption |].
  now apply has_pattern_all.
Qed.

Lemma X6_exact_typing_first_witness :
  hd_error (search (insert_all newTrie [cat; car]) (patterns_of car) 5) =
  Some (mkSuggestion car 0).
Proof.
  destruct (X6_exact_typing_first [cat; car] car 5) as [Hhd _].
  - right. left. reflexivity.
  - discriminate.
  - intros char [<- | [<- | [<- | []]]]; discriminate.
  - lia.
  - exact Hhd.
Defined.

(** X7.  [search] never leaves a word out for its cost: for a trie built
    by [insert] from a list of words, a non-empty query and
    [maxSuggestions = k >= 0], the number of records returned is the
    smaller of [k] and the number of different words of the list whose
    symbols all have a pattern. *)
Theorem X7_result_length (words : list (list ascii))
  (inputPatterns : list string) (k : Z) :
  inputPatterns <> [] ->
  0 <= k ->
  List.length (search (insert_all newTrie words) inputPatterns k) =
  Nat.min (Z.to_nat k)
    (List.length (nodup word_eq_dec (filter (forallb has_pattern) words))).
Proof.
  intros Hne Hk. rewrite search_length by assumption. f_equal.
  apply Permutation_length, NoDup_Permutation.
  - apply words_of_NoDup, distinct_keys_insert_all. reflexivity.
  - apply NoDup_nodup.
  - intros w. rewrite words_of_insert_all, nodup_In, has_pattern_filter.
    reflexivity.
Qed.

Lemma X7_result_length_witness :
  List.length
    (search (insert_all newTrie [cat; ["c"; "4"]%char; car; cat])
            cat_query 5) = 2%nat.
Proof.
  rewrite (X7_result_length [cat; ["c"; "4"]%char; car; cat] cat_query 5).
  - vm_compute. reflexivity.
  - discriminate.
  - lia.
Defined.

(** X8.  The order in which the words are inserted, and inserting a word
    more than once, change nothing but the order of records of equal cost:
    two lists with the same words give ranked lists that are permutations
    of each other, and results of [search] with the same costs, position by
    position. *)
Theorem X8_insertion_order (words1 words2 : list (list ascii))
  (inputPatterns : list string) (k : Z) :
  (forall w, In w words1 <-> In w words2) ->
  let t1 := insert_all newTrie words1 in
  let t2 := insert_all newTrie words2 in
  Permutation (search_full t1 inputPatterns) (search_full t2 inputPatterns) /\
  map cost (search t1 inputPatterns k) = map cost (search t2 inputPatterns k).
Proof.
  intros Hsame t1 t2.
  assert (Hperm : Permutation (search_full t1 inputPatterns)
                              (search_full t2 inputPatterns)).
  { destruct inputPatterns as [| p q]; [reflexivity |].
    rewrite (search_full_records t1 (p :: q)) by discriminate.
    rewrite (search_full_records t2 (p :: q)) by discriminate.
    apply Permutation_map. now apply words_of_same_words. }
  split; [exact Hperm |].
  rewrite !search_slice, !slice0_map. f_equal.
  apply sorted_Z_perm_eq.
  - apply sorted_costs, search_full_sorted.
  - apply sorted_costs, search_full_sorted.
  - now apply Permutation_map.
Qed.

Lemma X8_insertion_order_witness :
  map cost (search (insert_all newTrie [cat; car]) cat_query 5) =
  map cost (search (insert_all newTrie [car; cat; car]) cat_query 5).
Proof.
  destruct (X8_insertion_order [cat; car] [car; cat; car] cat_query 5)
    as [_ Hcosts].
  - intros w. cbn. tauto.
  - exact Hcosts.
Defined.

(** X9.  [insert] then [search]: on a trie with distinct keys and a
    non-empty query, the records ranked after [insert(w)] are the records
    ranked before, unchanged, and the record of [w] if all the symbols of
    [w] have a pattern. *)
Theorem X9_search_after_insert (t : Trie) (w : list ascii)
  (inputPatterns : list string) (r : Suggestion) :
  distinct_keys t = true ->
  inputPatterns <> [] ->
  (In r (search_full (insert t w) inputPatterns) <->
   In r (search_full t inputPatterns) \/
   (r = mkSuggestion w (word_cost inputPatterns w) /\
    forall char, In char w -> letterToPattern char <> None)).
Proof.
  intros Ht Hne. rewrite <- has_pattern_all.
  assert (Hin : forall t', In r (search_full t' inputPatterns) <->
                           exists w', record_of inputPatterns w' = r /\
                                      In w' (words_of t')).
  { intros t'. rewrite <- in_map_iff. split; intros H.
    - exact (Permutation_in _ (search_full_records t' _ Hne) H).
    - exact (Permutation_in _
               (Permutation_sym (search_full_records t' _ Hne)) H). }
  rewrite !Hin. split.
  - intros (w' & <- & Hw'). apply (words_of_insert t w w' Ht) in Hw'.
    destruct Hw' as [Hold | [-> Hall]]; [left; now exists w' | right].
    now split.
  - intros [(w' & <- & Hw') | [-> Hall]].
    + exists w'. split; [reflexivity |].
      apply (words_of_insert t w w' Ht). now left.
    + exists w. split; [reflexivity |].
      apply (words_of_insert t w w Ht). right. now split.
Qed.

Lemma X9_search_after_insert_witness :
  distinct_keys cat_trie = true /\
  In (mkSuggestion car 2) (search_full (insert cat_trie car) cat_query).
Proof.
  split; [reflexivity |].
  apply (X9_search_after_insert cat_trie car cat_query (mkSuggestion car 2)).
  - reflexivity.
  - discriminate.
  - right. split; [vm_compute; reflexivity |].
    intros char [<- | [<- | [<- | []]]]; discriminate.
Defined.

(** * Properties of the component's functions *)

(** ** [keyToDot] *)

Lemma keyToDot_spec key dot :
  keyToDot key = Some dot <-> In (key, dot) dot_keys.
Proof.
  split.
  - destruct key as [| c rest]; [discriminate |].
    destruct c as [[] [] [] [] [] [] [] []]; cbn; try discriminate;
      destruct rest; cbn; try discriminate; intros [= <-]; tauto.
  - cbn. intros [H | [H | [H | [H | [H | [H | []]]]]]];
      injection H as <- <-; reflexivity.
Qed.

Lemma keyToDot_range key dot : keyToDot key = Some dot -> (dot < 6)%nat.
Proof.
  rewrite keyToDot_spec. cbn.
  intros [H | [H | [H | [H | [H | [H | []]]]]]]; injection H as _ <-; lia.
Qed.

Lemma keyToDot_inj key1 key2 dot :
  keyToDot key1 = Some dot -> keyToDot key2 = Some dot -> key1 = key2.
Proof.
  rewrite !keyToDot_spec. cbn.
  intros [H1 | [H1 | [H1 | [H1 | [H1 | [H1 | []]]]]]]
         [H2 | [H2 | [H2 | [H2 | [H2 | [H2 | []]]]]]];
    congruence.
Qed.

Lemma pressed_spec array i :
  pressed array i = true <->
  exists key, In key array /\ keyToDot key = Some i.
Proof.
  unfold pressed. rewrite existsb_exists. split.
  - intros (key & Hin & Hdot). exists key. split; [assumption |].
    destruct (keyToDot key) as [dot|]; [| discriminate].
    apply Nat.eqb_eq in Hdot. now subst.
  - intros (key & Hin & Hdot). exists key. split; [assumption |].
    rewrite Hdot. apply Nat.eqb_refl.
Qed.

(** ** [keysToPattern] *)

Lemma array_set_length pattern : forall dot v,
  List.length (array_set pattern dot v) = List.length pattern.
Proof.
  induction pattern as [| x tl IH]; intros [| dot] v; cbn; auto.
Qed.

Lemma array_set_nth pattern : forall dot v i x,
  (dot < List.length pattern)%nat ->
  nth i (array_set pattern dot v) x =
  if (i =? dot)%nat then v else nth i pattern x.
Proof.
  induction pattern as [| y tl IH]; intros [| dot] v [| i] x Hdot;
    cbn in *; try lia; try reflexivity.
  apply IH. lia.
Qed.

Lemma fold_keys_length array : forall pattern,
  List.length
    (fold_left
       (fun pattern key =>
          match keyToDot key with
          | Some dot => array_set pattern dot "1"%char
          | None => pattern
          end) array pattern) = List.length pattern.
Proof.
  induction array as [| key tl IH]; intros pattern; cbn [fold_left];
    [reflexivity |].
  rewrite IH. destruct (keyToDot key); [apply array_set_length | reflexivity].
Qed.

Lemma fold_keys_nth array : forall pattern i,
  List.length pattern = 6%nat ->
  nth i
    (fold_left
       (fun pattern key =>
          match keyToDot key with
          | Some dot => array_set pattern dot "1"%char
          | None => pattern
          end) array pattern) "0"%char =
  if pressed array i then "1"%char else nth i pattern "0"%char.
Proof.
  induction array as [| key tl IH]; intros pattern i Hlen;
    cbn [fold_left pressed existsb]; [reflexivity |].
  fold (pressed tl i).
  destruct (keyToDot key) as [dot|] eqn:Hdot.
  - rewrite IH by now rewrite array_set_length.
    apply keyToDot_range in Hdot.
    rewrite array_set_nth by lia.
    rewrite (Nat.eqb_sym i dot).
    destruct (dot =? i)%nat, (pressed tl i); reflexivity.
  - cbn [orb]. now apply IH.
Qed.

(** The pattern in closed form: cell [i] is 1 exactly when a key of the
    array maps to dot [i]. *)
Lemma keysToPattern_bits keys :
  keysToPattern keys =
  string_of_list_ascii
    (map (fun i => if pressed (keysArray keys) i then "1"%char else "0"%char)
         (seq 0 6)).
Proof.
  unfold keysToPattern. f_equal.
  set (f := fun pattern key =>
              match keyToDot key with
              | Some dot => array_set pattern dot "1"%char
              | None => pattern
              end).
  assert (Hlen : List.length (fold_left f (keysArray keys)
                                (repeat "0"%char 6)) = 6%nat)
    by (subst f; now rewrite fold_keys_length).
  apply (nth_ext _ _ "0"%char "0"%char).
  - now rewrite Hlen, length_map, length_seq.
  - intros i Hi. rewrite Hlen in Hi.
    subst f. rewrite fold_keys_nth by reflexivity.
    do 6 (destruct i as [| i]; [reflexivity |]). lia.
Qed.

Lemma keysToPattern_valid keys : valid_pattern (keysToPattern keys) = true.
Proof.
  rewrite keysToPattern_bits. cbn [seq map string_of_list_ascii].
  repeat match goal with
         | |- context [pressed ?a ?i] => destruct (pressed a i)
         end; reflexivity.
Qed.

Lemma inputPatterns_of_valid groups :
  valid_query (inputPatterns_of groups) = true.
Proof.
  unfold valid_query, inputPatterns_of. apply forallb_forall.
  intros p Hp. apply in_map_iff in Hp. destruct Hp as (keys & <- & _).
  apply keysToPattern_valid.
Qed.

Lemma keysToPattern_eq_pressed keys1 keys2 :
  keysToPattern keys1 = keysToPattern keys2 <->
  forall i, (i < 6)%nat ->
    pressed (keysArray keys1) i = pressed (keysArray keys2) i.
Proof.
  rewrite !keysToPattern_bits. cbn [seq map string_of_list_ascii]. split.
  - intros Heq i Hi.
    injection Heq as H0 H1 H2 H3 H4 H5.
    do 6 (destruct i as [| i];
          [match goal with
           | |- pressed ?a ?j = pressed ?b ?j =>
               destruct (pressed a j), (pressed b j);
               try reflexivity; discriminate
           end |]).
    lia.
  - intros H.
    rewrite (H 0%nat), (H 1%nat), (H 2%nat), (H 3%nat), (H 4%nat), (H 5%nat)
      by lia.
    reflexivity.
Qed.

Lemma sort_keys_perm keys : Permutation (sort_keys keys) keys.
Proof.
  induction keys as [| key tl IH]; cbn; [reflexivity |].
  transitivity (key :: sort_keys tl); [| now constructor].
  clear IH. induction (sort_keys tl) as [| other l IHl]; cbn; [reflexivity |].
  destruct (String.leb key other); [reflexivity |].
  rewrite IHl. apply perm_swap.
Qed.

Lemma keysToPattern_same_dot_keys array1 array2 :
  keysToPattern (KeyArray array1) = keysToPattern (KeyArray array2) <->
  forall key, is_dot_key key = true -> (In key array1 <-> In key array2).
Proof.
  rewrite keysToPattern_eq_pressed. cbn [keysArray]. split.
  - intros Hp key Hkey. unfold is_dot_key in Hkey.
    destruct (keyToDot key) as [dot|] eqn:Hdot; [| discriminate].
    pose proof (keyToDot_range _ _ Hdot) as Hlt.
    specialize (Hp dot Hlt).
    assert (Hone : forall array,
               In key array <-> pressed array dot = true).
    { intros array. rewrite pressed_spec. split.
      - intros Hin. now exists key.
      - intros (key' & Hin & Hdot').
        now rewrite (keyToDot_inj key key' dot Hdot Hdot'). }
    now rewrite !Hone, Hp.
  - intros Hsame i _.
    apply eq_true_iff_eq. rewrite !pressed_spec.
    split; intros (key & Hin & Hdot); exists key; (split; [| assumption]);
      apply (Hsame key); try assumption;
      unfold is_dot_key; now rewrite Hdot.
Qed.

Lemma keys_for_pattern pattern :
  valid_pattern pattern = true ->
  keysToPattern (KeyArray (keys_for pattern)) = pattern.
Proof.
  intros Hp. apply binary_string_enum in Hp.
  vm_compute in Hp.
  repeat (destruct Hp as [<- | Hp]; [vm_compute; reflexivity |]).
  contradiction.
Qed.

Lemma inputPatterns_of_filter groups :
  inputPatterns_of (filter not_space groups) = inputPatterns_of groups.
Proof.
  unfold inputPatterns_of. f_equal.
  induction groups as [| g tl IH]; cbn [filter]; [reflexivity |].
  destruct (not_space g) eqn:Hg; cbn [filter]; [| exact IH].
  now rewrite Hg, IH.
Qed.

Lemma inputPatterns_of_chords w :
  inputPatterns_of (chords_of w) = patterns_of w.
Proof.
  unfold inputPatterns_of.
  induction w as [| char rest IH]; [reflexivity |].
  rewrite patterns_of_cons. unfold chords_of in *. cbn [flat_map].
  destruct (letterToPattern char) as [pattern|] eqn:Hpat; [| exact IH].
  cbn [app filter not_space map]. rewrite IH. f_equal.
  apply keys_for_pattern. exact (letterToPattern_valid char pattern Hpat).
Qed.

Lemma inputPatterns_of_word w :
  inputPatterns_of (groups_of_word w) =
  map (fun char => keysToPattern (KeyArray [String char EmptyString])) w.
Proof.
  unfold inputPatterns_of, groups_of_word.
  induction w as [| char rest IH]; [reflexivity |].
  cbn [map filter not_space]. now rewrite IH.
Qed.

(** The one key of a group set by a click never gives the pattern of its
    letter. *)
Lemma letter_group_pattern char pattern :
  letterToPattern char = Some pattern ->
  keysToPattern (KeyArray [String char EmptyString]) <> pattern.
Proof.
  destruct char as [[] [] [] [] [] [] [] []]; cbn [letterToPattern];
    try discriminate; intros [= <-]; vm_compute; discriminate.
Qed.

Lemma suggestions_for_search t groups :
  suggestions_for t groups = search t (inputPatterns_of groups) 5.
Proof.
  unfold suggestions_for, search_default.
  destruct (inputPatterns_of groups) as [| p q]; reflexivity.
Qed.

Lemma sort_keys_In keys key : In key (sort_keys keys) <-> In key keys.
Proof.
  split; apply Permutation_in;
    [apply sort_keys_perm | apply Permutation_sym, sort_keys_perm].
Qed.

Lemma includes_In currentKeys key :
  includes currentKeys key = true <-> In key currentKeys.
Proof.
  unfold includes. rewrite existsb_exists. split.
  - intros (x & Hx & Heq). apply String.eqb_eq in Heq. now subst.
  - intros Hin. exists key. split; [assumption | apply String.eqb_refl].
Qed.

Lemma slice0_drop_last {A : Type} (l : list A) (x : A) :
  slice0 (l ++ [x]) (-1) = l.
Proof.
  rewrite slice0_negative by lia. rewrite length_app. cbn [List.length].
  replace (List.length l + 1 - Z.to_nat (- -1))%nat with (List.length l)
    by lia.
  rewrite firstn_app, firstn_all, Nat.sub_diag. cbn. apply app_nil_r.
Qed.

(** * Properties of the component, stated *)

(** X10.  [keysToPattern] returns a width-6 string of 0s and 1s whatever
    it is given, so that every query the component passes to [search] is
    well formed. *)
Theorem X10_patterns_well_formed (keys : Keys) (groups : list Keys) :
  valid_pattern (keysToPattern keys) = true /\
  valid_query (inputPatterns_of groups) = true.
Proof.
  split; [apply keysToPattern_valid | apply inputPatterns_of_valid].
Qed.

(** X11.  The pattern of a group has a 1 at position [i] exactly when one
    of the keys of the group is the key of dot [i] in [keyToDot], and a 0
    elsewhere; keys that are not in [keyToDot] leave no trace. *)
Theorem X11_pattern_bits (keys : Keys) (i : nat) :
  (i < 6)%nat ->
  String.get i (keysToPattern keys) =
    Some (if pressed (keysArray keys) i then "1"%char else "0"%char) /\
  (pressed (keysArray keys) i = true <->
   exists key, In key (keysArray keys) /\ keyToDot key = Some i).
Proof.
  intros Hi. split; [| apply pressed_spec].
  rewrite keysToPattern_bits. cbn [seq map string_of_list_ascii].
  do 6 (destruct i as [| i]; [reflexivity |]). lia.
Qed.

Lemma X11_pattern_bits_witness :
  String.get 3 (keysToPattern (KeyArray ["k"; "x"; "d"; "k"]%string)) =
  Some "1"%char.
Proof.
  destruct (X11_pattern_bits (KeyArray ["k"; "x"; "d"; "k"]%string) 3)
    as [Hget _]; [lia |].
  exact Hget.
Defined.

(** X12.  Two arrays of keys give the same pattern exactly when they hold
    the same keys of [keyToDot]: the order of the keys, repetitions and
    other keys do not count.  In particular the sort that
    [handleKeyDown] applies to a group does not change its pattern. *)
Theorem X12_pattern_of_key_set (array1 array2 : list string) :
  (keysToPattern (KeyArray array1) = keysToPattern (KeyArray array2) <->
   forall key, is_dot_key key = true -> (In key array1 <-> In key array2)) /\
  keysToPattern (KeyArray (sort_keys array1)) =
  keysToPattern (KeyArray array1).
Proof.
  split; [apply keysToPattern_same_dot_keys |].
  apply keysToPattern_same_dot_keys. intros key _. apply sort_keys_In.
Qed.

(** X13.  Every width-6 binary pattern can be typed: the keys of its
    raised dots give it back through [keysToPattern].  So each letter of
    [letterToPattern] has a chord. *)
Theorem X13_every_pattern_typed (pattern : string) :
  (valid_pattern pattern = true ->
   keysToPattern (KeyArray (keys_for pattern)) = pattern) /\
  (forall char, letterToPattern char = Some pattern ->
     keysToPattern (KeyArray (keys_for pattern)) = pattern).
Proof.
  split; [apply keys_for_pattern |].
  intros char Hchar. apply keys_for_pattern.
  exact (letterToPattern_valid char pattern Hchar).
Qed.

Lemma X13_every_pattern_typed_witness :
  keys_for "011110" = ["w"; "q"; "k"; "o"]%string /\
  keysToPattern (KeyArray ["w"; "q"; "k"; "o"]%string) = "011110"%string.
Proof.
  split; [reflexivity |].
  destruct (X13_every_pattern_typed "011110"%string) as [_ Hletter].
  exact (Hletter "t"%char eq_refl).
Defined.

(** X14.  What the component shows for the groups typed: groups that are
    the string ['space'] are ignored; without any other group nothing is
    shown; at most five suggestions are shown; and over the sample
    dictionary exactly five are shown as soon as one group of keys has
    been typed, whatever the keys, since [search] applies no cost limit. *)
Theorem X14_suggestions_shown (t : Trie) (groups : list Keys) :
  suggestions_for t groups = suggestions_for t (filter not_space groups) /\
  (List.length (suggestions_for t groups) <= 5)%nat /\
  ((forall g, In g groups -> not_space g = false) ->
   suggestions_for t groups = []) /\
  ((exists g, In g groups /\ not_space g = true) ->
   List.length (suggestions_for dictionary_trie groups) = 5%nat).
Proof.
  rewrite !suggestions_for_search, inputPatterns_of_filter.
  split; [reflexivity |]. split; [| split].
  - rewrite search_slice, slice0_nonneg by lia. apply firstn_le_length.
  - intros Hall. unfold inputPatterns_of.
    replace (filter not_space groups) with (@nil Keys); [reflexivity |].
    symmetry. induction groups as [| g tl IH]; [reflexivity |].
    cbn [filter]. rewrite (Hall g (or_introl eq_refl)).
    apply IH. intros g' Hg'. apply Hall. now right.
  - intros (g & Hg & Hns).
    rewrite search_length.
    + vm_compute. reflexivity.
    + unfold inputPatterns_of. intros Hnil.
      assert (Hin : In g (filter not_space groups))
        by (apply filter_In; now split).
      destruct (filter not_space groups); [contradiction | discriminate].
    + lia.
Qed.

Lemma X14_suggestions_shown_witness :
  List.length
    (suggestions_for dictionary_trie
       [KeyText "space"; KeyArray ["p"; "z"]%string]) = 5%nat.
Proof.
  destruct (X14_suggestions_shown dictionary_trie
              [KeyText "space"; KeyArray ["p"; "z"]%string])
    as (_ & _ & _ & Hfive).
  apply Hfive. exists (KeyArray ["p"; "z"]%string).
  split; [right; left; reflexivity | reflexivity].
Defined.

(** ** Chords typed through [handleKeyDown] *)

Lemma dot_key_lower key : is_dot_key key = true -> toLowerCase key = key.
Proof.
  unfold is_dot_key. destruct (keyToDot key) as [dot|] eqn:Hdot;
    [| discriminate].
  intros _. apply keyToDot_spec in Hdot. cbn in Hdot.
  destruct Hdot as [H | [H | [H | [H | [H | [H | []]]]]]];
    injection H as <- _; reflexivity.
Qed.

Lemma press_dot_key key s :
  is_dot_key key = true ->
  ~ In key (currentKeys s) ->
  press key s =
  mkAppState (currentKeys s ++ [key]) (groups s) (Some (currentKeys s)).
Proof.
  intros Hdot Hnew. unfold press, handleKeyDown.
  rewrite (dot_key_lower key Hdot), Hdot.
  destruct (includes (currentKeys s) key) eqn:Hinc; [| reflexivity].
  apply includes_In in Hinc. contradiction.
Qed.

Lemma press_all_dot_keys keys :
  forall s,
    Forall (fun key => is_dot_key key = true) keys ->
    NoDup (currentKeys s ++ keys) ->
    currentKeys (press_all keys s) = currentKeys s ++ keys /\
    groups (press_all keys s) = groups s.
Proof.
  unfold press_all.
  induction keys as [| key tl IH]; intros s Hdots Hnd; cbn [fold_left].
  - now rewrite app_nil_r.
  - inversion Hdots as [| ? ? Hkey Htl]; subst.
    assert (Hnew : ~ In key (currentKeys s)).
    { apply NoDup_remove_2 in Hnd. intros Hin. apply Hnd.
      apply in_or_app. now left. }
    rewrite (press_dot_key key s Hkey Hnew).
    destruct (IH (mkAppState (currentKeys s ++ [key]) (groups s)
                             (Some (currentKeys s))) Htl) as [Hck Hg].
    + cbn [currentKeys]. now rewrite <- app_assoc.
    + cbn [currentKeys groups] in *. now rewrite Hck, Hg, <- app_assoc.
Qed.

(** A chord of distinct keys of [keyToDot], typed from a state without
    pending keys and followed by one more such key, is committed whole when
    the timer fires; the key that followed is dropped. *)
Lemma type_chord_commits keys extra s :
  currentKeys s = [] ->
  keys <> [] ->
  Forall (fun key => is_dot_key key = true) keys ->
  NoDup keys ->
  is_dot_key extra = true ->
  ~ In extra keys ->
  type_chord keys extra s =
  mkAppState [] (groups s ++ [KeyArray (sort_keys keys)]) None.
Proof.
  intros Hck Hne Hdots Hnd Hextra Hnew. unfold type_chord.
  destruct (press_all_dot_keys keys s Hdots) as [Hkeys Hgroups];
    [now rewrite Hck |].
  rewrite Hck in Hkeys. cbn [app] in Hkeys.
  rewrite press_dot_key by (assumption || now rewrite Hkeys).
  rewrite Hkeys, Hgroups. unfold timer_fires. cbn [timer currentKeys groups].
  destruct keys as [| key tl]; [congruence | reflexivity].
Qed.

(** Each letter has a chord and a spare key. *)
Lemma letter_chord char pattern :
  letterToPattern char = Some pattern ->
  exists extra,
    spare_key pattern = Some extra /\
    keys_for pattern <> [] /\
    Forall (fun key => is_dot_key key = true) (keys_for pattern) /\
    NoDup (keys_for pattern) /\
    is_dot_key extra = true /\
    ~ In extra (keys_for pattern).
Proof.
  destruct char as [[] [] [] [] [] [] [] []]; cbn [letterToPattern];
    try discriminate; intros [= <-];
    (eexists; split; [vm_compute; reflexivity |]);
    vm_compute keys_for;
    (split; [discriminate |]);
    (split; [repeat constructor |]);
    (split; [repeat constructor; cbn; intuition discriminate |]);
    (split; [reflexivity | cbn; intuition discriminate]).
Qed.

Lemma type_symbol_commits char pattern s :
  letterToPattern char = Some pattern ->
  currentKeys s = [] ->
  type_symbol char s =
  mkAppState [] (groups s ++ [KeyArray (sort_keys (keys_for pattern))]) None.
Proof.
  intros Hpat Hck. unfold type_symbol. rewrite Hpat.
  destruct (letter_chord char pattern Hpat)
    as (extra & -> & Hne & Hdots & Hnd & Hextra & Hnew).
  now apply type_chord_commits.
Qed.

Lemma type_word_commits w :
  forall s,
    forallb has_pattern w = true ->
    currentKeys s = [] ->
    currentKeys (type_word w s) = [] /\
    groups (type_word w s) = groups s ++ committed_chords w.
Proof.
  unfold type_word, committed_chords.
  induction w as [| char rest IH]; intros s Hall Hck;
    cbn [fold_left flat_map].
  - now rewrite app_nil_r.
  - cbn [forallb] in Hall. apply andb_true_iff in Hall.
    destruct Hall as [Hchar Hall]. unfold has_pattern in Hchar.
    destruct (letterToPattern char) as [pattern|] eqn:Hpat; [| discriminate].
    rewrite (type_symbol_commits char pattern s Hpat Hck).
    destruct (IH (mkAppState [] (groups s ++
                     [KeyArray (sort_keys (keys_for pattern))]) None) Hall)
      as [Hck' Hg]; [reflexivity |].
    cbn [groups] in Hg. split; [exact Hck' |].
    now rewrite Hg, <- app_assoc.
Qed.

Lemma inputPatterns_of_committed w :
  inputPatterns_of (committed_chords w) = patterns_of w.
Proof.
  unfold inputPatterns_of.
  induction w as [| char rest IH]; [reflexivity |].
  rewrite patterns_of_cons. unfold committed_chords in *. cbn [flat_map].
  destruct (letterToPattern char) as [pattern|] eqn:Hpat; [| exact IH].
  cbn [app filter not_space map]. rewrite IH. f_equal.
  transitivity (keysToPattern (KeyArray (keys_for pattern))).
  - apply keysToPattern_same_dot_keys. intros key _. apply sort_keys_In.
  - apply keys_for_pattern. exact (letterToPattern_valid char pattern Hpat).
Qed.

(** X15.  Typing a dictionary word through [handleKeyDown]: starting from
    the initial state, for each symbol press the keys of the raised dots of
    its pattern, then one more key of [keyToDot] (the timer drops the last
    key pressed), then let the timer fire, every press being handled by the
    handler of the latest render.  The groups committed are the chords of
    the symbols, no key is left pending, the patterns the effect computes
    are those of the word, and the first suggestion is the word at cost 0. *)
Theorem X15_typed_word_shown_first (words : list (list ascii))
  (w : list ascii) :
  In w words ->
  w <> [] ->
  (forall char, In char w -> letterToPattern char <> None) ->
  let typed := type_word w initialState in
  currentKeys typed = [] /\
  groups typed = committed_chords w /\
  inputPatterns_of (groups typed) = patterns_of w /\
  hd_error (suggestions_for (insert_all newTrie words) (groups typed)) =
    Some (mkSuggestion w 0).
Proof.
  intros Hw Hne Hall typed. subst typed.
  apply has_pattern_all in Hall.
  destruct (type_word_commits w initialState Hall eq_refl) as [Hck Hg].
  cbn [groups initialState app] in Hg.
  split; [exact Hck |]. split; [exact Hg |].
  rewrite Hg, suggestions_for_search, inputPatterns_of_committed.
  split; [reflexivity |].
  apply exact_query_first; [| assumption | lia].
  apply words_of_insert_all. now split.
Qed.

Lemma X15_typed_word_shown_first_witness :
  type_word car initialState =
    timer_fires (press "k" (press "o" (press "q" (press "w" (press "d"
    (timer_fires (press "w" (press "d"
    (timer_fires (press "w" (press "k" (press "d"
       initialState)))))))))))) /\
  groups (type_word car initialState) =
    [KeyArray ["d"; "k"]%string; KeyArray ["d"]%string;
     KeyArray ["d"; "o"; "q"; "w"]%string] /\
  hd_error (suggestions_for (insert_all newTrie [cat; car])
                            (groups (type_word car initialState))) =
    Some (mkSuggestion car 0).
Proof.
  split; [reflexivity |]. split; [reflexivity |].
  destruct (X15_typed_word_shown_first [cat; car] car) as (_ & _ & _ & Hhd).
  - right. left. reflexivity.
  - discriminate.
  - intros char [<- | [<- | [<- | []]]]; discriminate.
  - exact Hhd.
Defined.

(** X16.  A click on a suggestion replaces the groups by one group per
    letter of the word, each holding the letter itself.  The patterns of
    these groups are not the patterns of the letters: in the suggestions
    computed from them, the word clicked on is never an exact match, its
    cost is at least 1. *)
Theorem X16_click_is_not_exact (t : Trie) (r : Suggestion) :
  In r (suggestions_for t (groups_of_word (word r))) ->
  1 <= cost r /\
  inputPatterns_of (groups_of_word (word r)) <> patterns_of (word r).
Proof.
  rewrite suggestions_for_search. intros Hr.
  set (q := inputPatterns_of (groups_of_word (word r))) in *.
  destruct (search_result_record _ _ _ _ Hr) as (Hq & Hw & Heq).
  apply words_of_patterned in Hw.
  assert (Hdiff : q <> patterns_of (word r)).
  { subst q. rewrite inputPatterns_of_word in *.
    destruct (word r) as [| char rest]; [now contradiction Hq |].
    rewrite patterns_of_cons. cbn [map forallb] in *.
    apply andb_true_iff in Hw. destruct Hw as [Hchar _].
    unfold has_pattern in Hchar.
    destruct (letterToPattern char) as [pattern|] eqn:Hpat; [| discriminate].
    intros [= Hhead _].
    exact (letter_group_pattern char pattern Hpat Hhead). }
  split; [| exact Hdiff].
  pose proof (word_cost_bounds q (word r) Hw) as Hb.
  assert (Hcost : cost r = word_cost q (word r))
    by (rewrite Heq at 1; reflexivity).
  assert (Hnz : word_cost q (word r) <> 0).
  { intros Hc.
    apply (word_cost_zero_exact q (word r)) in Hc;
      [| apply inputPatterns_of_valid | assumption].
    now apply Hdiff. }
  unfold deletionCost in Hb. lia.
Qed.

Lemma X16_click_is_not_exact_witness :
  inputPatterns_of (groups_of_word cat) =
    ["000000"; "000000"; "000000"]%string /\
  In (mkSuggestion cat 7) (suggestions_for cat_trie (groups_of_word cat)) /\
  1 <= 7.
Proof.
  split; [reflexivity |].
  assert (Hin : In (mkSuggestion cat 7)
                   (suggestions_for cat_trie (groups_of_word cat)))
    by (vm_compute; left; reflexivity).
  split; [exact Hin |].
  destruct (X16_click_is_not_exact cat_trie (mkSuggestion cat 7) Hin)
    as [Hcost _].
  exact Hcost.
Defined.

(** X17.  The group that the timer commits never holds the key whose
    press started the timer.  When [handleKeyDown] accepts a key, the key
    joins [currentKeys] and the timer is set with the keys the render had;
    when the timer fires, it appends those keys, sorted, as a group and
    empties [currentKeys], or does nothing if the render had none: the key
    just pressed is not in the group, and a first key pressed alone is not
    committed at all. *)
Theorem X17_timer_misses_last_key (rendered : list string) (e_key : string)
  (s : AppState) :
  let key := toLowerCase e_key in
  is_dot_key key = true ->
  includes rendered key = false ->
  let pressed_state := handleKeyDown rendered e_key s in
  let fired := timer_fires pressed_state in
  currentKeys pressed_state = currentKeys s ++ [key] /\
  groups pressed_state = groups s /\
  (rendered = [] ->
   fired = mkAppState (currentKeys s ++ [key]) (groups s) None) /\
  (rendered <> [] ->
   fired = mkAppState [] (groups s ++ [KeyArray (sort_keys rendered)]) None /\
   ~ In key (sort_keys rendered) /\
   keysToPattern (KeyArray (sort_keys rendered)) =
   keysToPattern (KeyArray rendered)).
Proof.
  intros key Hdot Hnew pressed_state fired.
  subst pressed_state fired. unfold handleKeyDown. fold key.
  rewrite Hdot, Hnew. cbn [andb negb currentKeys groups].
  split; [reflexivity |]. split; [reflexivity |].
  unfold timer_fires. cbn [timer currentKeys groups]. split.
  - intros ->. reflexivity.
  - intros Hne.
    destruct rendered as [| k0 rest]; [congruence |].
    cbn [List.length Nat.ltb Nat.leb]. split; [reflexivity |]. split.
    + rewrite sort_keys_In. intros Hin.
      apply includes_In in Hin. congruence.
    + apply keysToPattern_same_dot_keys. intros k' _. apply sort_keys_In.
Qed.

Lemma X17_timer_misses_last_key_witness :
  timer_fires (handleKeyDown [] "d" initialState) =
    mkAppState ["d"%string] [] None /\
  timer_fires
    (handleKeyDown ["d"%string] "W" (handleKeyDown [] "d" initialState)) =
    mkAppState [] [KeyArray ["d"%string]] None.
Proof.
  split; [reflexivity |].
  destruct (X17_timer_misses_last_key ["d"%string] "W"
              (handleKeyDown [] "d" initialState))
    as (_ & _ & _ & Hfired).
  - reflexivity.
  - reflexivity.
  - destruct Hfired as [Hstate _]; [discriminate |]. exact Hstate.
Defined.

(** X18.  [handleKeyDown] ignores every key that, in lower case, is
    neither a key of [keyToDot] outside the [currentKeys] of the render,
    nor ['backspace'], nor a space: the state is unchanged, and a pending
    timer is not reset. *)
Theorem X18_ignored_keys (rendered : list string) (e_key : string)
  (s : AppState) :
  let key := toLowerCase e_key in
  (is_dot_key key = false \/ In key rendered) ->
  key <> "backspace"%string ->
  key <> " "%string ->
  handleKeyDown rendered e_key s = s.
Proof.
  intros key Hnot Hb Hs. unfold handleKeyDown. fold key.
  assert (Hfirst : is_dot_key key && negb (includes rendered key) = false).
  { destruct Hnot as [-> | Hin]; [reflexivity |].
    apply includes_In in Hin. rewrite Hin. apply andb_false_r. }
  rewrite Hfirst.
  apply String.eqb_neq in Hb, Hs. now rewrite Hb, Hs.
Qed.

Lemma X18_ignored_keys_witness :
  handleKeyDown ["d"%string] "D" (mkAppState ["d"%string] [] (Some [])) =
    mkAppState ["d"%string] [] (Some []) /\
  handleKeyDown [] "Shift" initialState = initialState.
Proof.
  split.
  - apply X18_ignored_keys.
    + right. left. reflexivity.
    + discriminate.
    + discriminate.
  - reflexivity.
Defined.

(** X19.  Backspace and space act on [groups] only, whatever the render:
    a space appends the group ['space'], Backspace removes the last group
    (of an empty list it removes nothing), so that Backspace undoes a
    space; neither changes [currentKeys] or the timer, and a space does not
    change the suggestions. *)
Theorem X19_backspace_and_space (t : Trie) (rendered rendered' : list string)
  (s : AppState) :
  handleKeyDown rendered " " s =
    mkAppState (currentKeys s) (groups s ++ [KeyText "space"]) (timer s) /\
  handleKeyDown rendered "Backspace" s =
    mkAppState (currentKeys s) (removelast (groups s)) (timer s) /\
  handleKeyDown rendered' "Backspace" (handleKeyDown rendered " " s) = s /\
  (groups s = [] -> handleKeyDown rendered "Backspace" s = s) /\
  suggestions_for t (groups (handleKeyDown rendered " " s)) =
    suggestions_for t (groups s).
Proof.
  assert (Hspace : handleKeyDown rendered " " s =
            mkAppState (currentKeys s) (groups s ++ [KeyText "space"])
                       (timer s)) by reflexivity.
  assert (Hback : forall rendered0 s0,
            handleKeyDown rendered0 "Backspace" s0 =
            mkAppState (currentKeys s0) (removelast (groups s0)) (timer s0)).
  { intros rendered0 s0. unfold handleKeyDown.
    change (toLowerCase "Backspace") with "backspace"%string.
    cbn [is_dot_key keyToDot andb String.eqb Ascii.eqb].
    change (is_dot_key "backspace") with false. cbn [andb].
    change (String.eqb "backspace" "backspace") with true. cbn iota.
    f_equal.
    destruct (groups s0) as [| g tl] using rev_ind; [reflexivity |].
    now rewrite slice0_drop_last, removelast_last. }
  split; [exact Hspace |]. split; [apply Hback |]. split; [| split].
  - rewrite Hback, Hspace. cbn [currentKeys groups timer].
    rewrite removelast_last. now destruct s.
  - intros Hnil. rewrite Hback, Hnil. destruct s. cbn in *. now subst.
  - rewrite Hspace. cbn [groups].
    rewrite !suggestions_for_search. f_equal.
    unfold inputPatterns_of. rewrite filter_app. cbn [filter not_space].
    change (String.eqb "space" "space") with true. cbn [negb].
    now rewrite app_nil_r.
Qed.

